(** * PISM tutorials: configuration dictionaries, command lines, paths

    The notebooks of the repository assemble Python dictionaries of PISM
    options, render them to a command line and hand it to the shell.  This
    file embeds that code: Python's insertion-ordered [dict] as an
    association list, f-string interpolation as [py_str], [pathlib] paths
    as a root and a list of components, the notebook cells as
    state-passing functions over the notebook's variables and a log of
    shell invocations, and the MISMIP+ bed functions over the reals.

    The helpers the notebooks import from the [pism_tutorials] package are
    defined outside the notebooks; where a statement needs one, it is
    either a section variable or modelled from the specification, and the
    definition says so. *)

From Stdlib Require Import List String Ascii ZArith Bool Lia.
From Stdlib Require Import Permutation Sorted DecimalString OrderedTypeEx.
From Stdlib Require Import DecimalZ DecimalPos FinFun.
From Stdlib Require Import QArith Qround Reals Lra.
Import ListNotations.

#[local] Open Scope list_scope.
#[local] Open Scope Z_scope.
#[local] Open Scope string_scope.

(* ================================================================= *)
(** * Part I: definitions *)
(* ================================================================= *)

(** ** Values stored in a configuration dictionary

    The notebooks store strings, integers, floats, [None] and
    [pathlib.Path] objects.  A float is carried by the text Python prints
    for it, a path by its string form. *)

Inductive value : Type :=
| VNone
| VStr (s : string)
| VInt (z : Z)
| VFloat (repr : string)
| VPath (p : string).

(** Python's [str] on an integer. *)
Definition str_of_int (z : Z) : string := NilZero.string_of_int (Z.to_int z).

(** What an f-string interpolates for a value [v] in a replacement field
    without format specification. *)
Definition py_str (v : value) : string :=
  match v with
  | VNone => "None"
  | VStr s => s
  | VInt z => str_of_int z
  | VFloat repr => repr
  | VPath p => p
  end.

(** The values the specification calls "empty": the empty string and
    [None]. *)
Definition is_empty_value (v : value) : bool :=
  match v with
  | VNone => true
  | VStr s => String.eqb s EmptyString
  | _ => false
  end.

(** ** Python dictionaries with string keys

    A [dict] keeps its entries in insertion order and [items()] iterates
    in that order, which is the order [dicts2str] renders; so a dictionary
    is the list of its entries, oldest first.  A well-formed dictionary
    has no key twice. *)

Definition dict : Type := list (string * value).

Definition dict_keys (d : dict) : list string := map fst d.

Definition wf_dict (d : dict) : Prop := NoDup (dict_keys d).

(** [d.get(k)] *)
Fixpoint dict_get (k : string) (d : dict) : option value :=
  match d with
  | [] => None
  | (k', v) :: rest => if String.eqb k k' then Some v else dict_get k rest
  end.

(** [d[k] = v]: an existing key keeps its position, a new key goes last. *)
Fixpoint dict_set (k : string) (v : value) (d : dict) : dict :=
  match d with
  | [] => [(k, v)]
  | (k', v') :: rest =>
      if String.eqb k k' then (k', v) :: rest
      else (k', v') :: dict_set k v rest
  end.

(** [d.update(other)]: the entries of [other] are stored one by one, in
    the order of [other]. *)
Definition dict_update (d other : dict) : dict :=
  fold_left (fun acc kv => dict_set (fst kv) (snd kv) acc) other d.

(** [bool(d)], as tested by [if d]. *)
Definition dict_bool (d : dict) : bool :=
  match d with
  | [] => false
  | _ :: _ => true
  end.

(** [sep.join(parts)] *)
Definition str_join (sep : string) (parts : list string) : string :=
  String.concat sep parts.

(** [s.split(sep)] for a one-character separator. *)
Fixpoint str_split (sep : ascii) (s : string) : list string :=
  match s with
  | EmptyString => [EmptyString]
  | String c rest =>
      if Ascii.eqb c sep then EmptyString :: str_split sep rest
      else match str_split sep rest with
           | [] => [String c EmptyString]
           | w :: ws => String c w :: ws
           end
  end.

(** ** [dicts2str] (notebook cell defining it)

    The inner function [d2s] joins, with one space, one piece per item of
    [d.items()]: a dash, the key, a space, the interpolated value.
    [dicts2str] joins, with one space, [d2s d] for every argument [d] that
    passes [if d]. *)

Definition d2s (d : dict) : string :=
  str_join " " (map (fun kv => "-" ++ fst kv ++ " " ++ py_str (snd kv)) d).

Definition dicts2str (args : list dict) : string :=
  str_join " " (map d2s (filter dict_bool args)).

(** The dictionary of the specification's example: key a with value 1,
    key b with the empty string. *)
Definition example_a_b : dict := [ ("a", VInt 1); ("b", VStr EmptyString) ].

(** A renderer skips empty values when no key with an empty value shows
    up as a [-key] word of its output. *)
Definition skips_empty_values (render : dict -> string) : Prop :=
  forall d k v,
    In (k, v) d -> is_empty_value v = true ->
    ~ In ("-" ++ k) (str_split " " (render d)).

(** ** [merge_dicts] *)

(** Modelled from the spec: [merge_dicts] is imported from
    [pism_tutorials.utils], whose source is missing.  The specification
    has it merge an ordered sequence of key-value mappings into one, last
    write wins on duplicate keys: starting from an empty dictionary, every
    argument is stored into the result in turn. *)
Definition merge_dicts (dicts : list dict) : dict :=
  fold_left dict_update dicts [].

(** The value bound to [k] by the last dictionary of [ds] that has the
    key. *)
Fixpoint last_binding (k : string) (ds : list dict) : option value :=
  match ds with
  | [] => None
  | d :: rest =>
      match last_binding k rest with
      | Some v => Some v
      | None => dict_get k d
      end
  end.

(** ** [sort_dict_by_key] *)

(** Modelled from the spec: the insertion step of [sort_dict_by_key]; the
    entry goes before the first entry whose key is not smaller. *)
Fixpoint insert_by_key (kv : string * value) (sorted : dict) : dict :=
  match sorted with
  | [] => [kv]
  | kv' :: rest =>
      if String.leb (fst kv) (fst kv') then kv :: sorted
      else kv' :: insert_by_key kv rest
  end.

(** Modelled from the spec: [sort_dict_by_key] is imported from
    [pism_tutorials.utils], whose source is missing.  The specification
    has it sort the merged mapping by key for reproducible output: the
    entries are put in ascending order of their keys, strings being
    compared character by character as Python compares them. *)
Definition sort_dict_by_key (d : dict) : dict :=
  fold_right insert_by_key [] d.

(** Entries in ascending key order. *)
Definition key_le (a b : string * value) : Prop :=
  String.leb (fst a) (fst b) = true.

(** Two dictionaries are the same mapping when every key has the same
    binding in both. *)
Definition same_mapping (d1 d2 : dict) : Prop :=
  forall k : string, dict_get k d1 = dict_get k d2.

(** ** Shell escapes

    A line [!text] of a notebook cell hands the system shell the text
    that follows the exclamation mark, a blank written after the mark
    included and blanks at the end of the line left out, with every
    [$name] replaced by the value of the variable.
    As a statement it yields no value; IPython stores the exit status in
    the user variable [_exit_code] and raises nothing, whatever the
    status.  The shell is the outside world: [outcomes i] is the exit
    status the [i]-th invocation will have, [issued] the commands handed
    over so far, oldest first. *)

Record shell : Type := mkShell {
  outcomes : nat -> Z;
  issued : list string;
  exit_code : option Z
}.

Definition fresh_shell (o : nat -> Z) : shell :=
  {| outcomes := o; issued := []; exit_code := None |}.

Definition bang (command : string) (sh : shell) : shell :=
  {| outcomes := outcomes sh;
     issued := (issued sh ++ [command])%list;
     exit_code := Some (outcomes sh (List.length (issued sh))) |}.

(** The notebook variables the run cells read and write: the dictionary
    [run_dict], shared by all cells, the string [cmd], and the shell. *)
Record notebook : Type := mkNotebook {
  run_dict : dict;
  cmd_var : string;
  sh : shell
}.

(** ** Paths

    On a POSIX system, where the notebooks run their shell commands,
    [pathlib] keeps a path as a root and a list of components.  Parsing a
    string splits it at the slashes and drops the empty components and the
    components that are a single dot; the root is one slash for a string
    that starts with a slash, and two for a string that starts with
    exactly two.  [p / key] appends the components of [key] to those of
    [p], unless [key] starts with a slash and then replaces [p].  [str(p)]
    is the root followed by the components joined with slashes, and a dot
    for the path without root and components. *)

Record pure_path : Type := mkPath {
  path_root : string;
  path_parts : list string
}.

Definition starts_with_slash (s : string) : bool :=
  match s with
  | String c _ => Ascii.eqb c "/"
  | EmptyString => false
  end.

Definition split_root (s : string) : string :=
  match s with
  | String c1 (String c2 rest) =>
      if Ascii.eqb c1 "/" then
        if Ascii.eqb c2 "/" then
          if starts_with_slash rest then "/" else "//"
        else "/"
      else EmptyString
  | String c1 EmptyString => if Ascii.eqb c1 "/" then "/" else EmptyString
  | EmptyString => EmptyString
  end.

Definition kept_part (x : string) : bool :=
  negb (String.eqb x EmptyString) && negb (String.eqb x ".").

(** [Path(s)] *)
Definition Path (s : string) : pure_path :=
  {| path_root := split_root s;
     path_parts := filter kept_part (str_split "/" s) |}.

(** [p / key] *)
Definition path_div (p : pure_path) (key : string) : pure_path :=
  if starts_with_slash key then Path key
  else {| path_root := path_root p;
          path_parts := (path_parts p ++ path_parts (Path key))%list |}.

(** [str(p)] *)
Definition path_str (p : pure_path) : string :=
  match path_parts p with
  | [] => if String.eqb (path_root p) EmptyString then "." else path_root p
  | _ :: _ => path_root p ++ str_join "/" (path_parts p)
  end.

(** [Path(output_dir) / name], as a string. *)
Definition path_join (output_dir name : string) : string :=
  path_str (path_div (Path output_dir) name).

(** A text without slash. *)
Fixpoint no_slash (s : string) : bool :=
  match s with
  | EmptyString => true
  | String c rest => negb (Ascii.eqb c "/") && no_slash rest
  end.

(** The components [ps] joined, with a slash after them, respectively
    before them, when there are any. *)
Definition join_before (ps : list string) : string :=
  match ps with
  | [] => EmptyString
  | _ :: _ => str_join "/" ps ++ "/"
  end.

Definition join_after (ps : list string) : string :=
  match ps with
  | [] => EmptyString
  | _ :: _ => "/" ++ str_join "/" ps
  end.

(** What [str(Path(output_dir) / name)] has before a plain [name]. *)
Definition path_prefix (output_dir : string) : string :=
  path_root (Path output_dir) ++ join_before (path_parts (Path output_dir)).

(** What a text [t] appended to a name adds to the path: its first piece
    as it is, then the other pieces that are kept as components. *)
Definition path_tail (t : string) : string :=
  match str_split "/" t with
  | [] => EmptyString
  | w :: ws => w ++ join_after (filter kept_part ws)
  end.

Section RunCells.

(** [dict2str] is imported from [pism_tutorials.utils], whose source is
    missing; the run cells are embedded for whatever function of the
    dictionary it is. *)
Variable dict2str : dict -> string.

(** The two lines every run cell shares:
    [run_str = dict2str(sort_dict_by_key(run_dict))] and
    [cmd = f"mpirun -np {n} pism " + run_str]. *)
Definition cmd (n : Z) (d : dict) : string :=
  let run_str := dict2str (sort_dict_by_key d) in
  ("mpirun -np " ++ str_of_int n ++ " pism ") ++ run_str.

(** *** The Greenland run loop

    For each pair of [zip([26, 85], climate_files)]: build the name of the
    output file, update [run_dict] in place, build [cmd], run it.  The
    line that runs it is [! $cmd], with a blank after the mark. *)

Definition greenland_update (output_dir resolution start end_ : string)
    (it : Z * string) : dict :=
  let '(rcp, climate_file) := it in
  let extra_file :=
    path_join output_dir
      ("spatial_g" ++ resolution ++ "_rcp_" ++ str_of_int rcp ++ "_"
       ++ start ++ "_" ++ end_ ++ ".nc") in
  [ ("surface.ismip6.file", VStr climate_file);
    ("output.extra.file", VPath extra_file) ].

Definition greenland_step (output_dir resolution start end_ : string)
    (st : notebook) (it : Z * string) : notebook :=
  let n := 8 in
  let run_dict' :=
    dict_update (run_dict st)
                (greenland_update output_dir resolution start end_ it) in
  let cmd' := cmd n run_dict' in
  {| run_dict := run_dict'; cmd_var := cmd';
     sh := bang (" " ++ cmd') (sh st) |}.

Definition greenland_loop (output_dir resolution start end_ : string)
    (its : list (Z * string)) (st : notebook) : notebook :=
  fold_left (greenland_step output_dir resolution start end_) its st.

(** *** The basin run loop

    For every basin name and every row [(s_id, sample)] of the sample
    table: store the sample's parameters, then the three file names, in
    [run_dict]; build [cmd]; run it, again with the line [! $cmd]. *)

Definition basin_update (output_dir resolution name : string) (s_id : Z)
    : dict :=
  let state_file :=
    path_join output_dir
      ("state_g" ++ resolution ++ "_sector_" ++ name ++ "_id_"
       ++ str_of_int s_id ++ ".nc") in
  let spatial_file :=
    path_join output_dir
      ("spatial_g" ++ resolution ++ "_sector_" ++ name ++ "_id_"
       ++ str_of_int s_id ++ ".nc") in
  [ ("grid.file", VStr ("domain_" ++ name ++ ".nc"));
    ("output.file", VPath state_file);
    ("output.extra.file", VPath spatial_file) ].

Definition basin_step (output_dir resolution name : string)
    (st : notebook) (row : Z * dict) : notebook :=
  let n := 8 in
  let '(s_id, sample) := row in
  let run_dict1 := dict_update (run_dict st) sample in
  let run_dict2 :=
    dict_update run_dict1 (basin_update output_dir resolution name s_id) in
  let cmd' := cmd n run_dict2 in
  {| run_dict := run_dict2; cmd_var := cmd';
     sh := bang (" " ++ cmd') (sh st) |}.

Definition basin_loop (output_dir resolution : string)
    (names : list string) (samples : list (Z * dict)) (st : notebook)
    : notebook :=
  fold_left
    (fun st name =>
       fold_left (basin_step output_dir resolution name) samples st)
    names st.

(** *** The MISMIP+ cells

    One cell sets [n = 8] and builds [cmd] from [run_dict]; a later cell
    is the single line [!$cmd]. *)



End RunCells.

(** The dictionaries [run_dict] goes through in the Greenland loop, one
    per iteration. *)
Fixpoint greenland_dicts (output_dir resolution start end_ : string)
    (its : list (Z * string)) (d : dict) : list dict :=
  match its with
  | [] => []
  | it :: rest =>
      let d' :=
        dict_update d (greenland_update output_dir resolution start end_ it) in
      d' :: greenland_dicts output_dir resolution start end_ rest d'
  end.

(** The dictionaries [run_dict] goes through in the inner basin loop. *)
Fixpoint basin_dicts (output_dir resolution name : string)
    (samples : list (Z * dict)) (d : dict) : list dict :=
  match samples with
  | [] => []
  | (s_id, sample) :: rest =>
      let d' :=
        dict_update (dict_update d sample)
                    (basin_update output_dir resolution name s_id) in
      d' :: basin_dicts output_dir resolution name rest d'
  end.

(** The keys the Greenland loop stores. *)
Definition greenland_loop_key (k : string) : bool :=
  String.eqb k "surface.ismip6.file" || String.eqb k "output.extra.file".

(** The entries of a dictionary under the other keys. *)
Definition other_entries (d : dict) : dict :=
  filter (fun kv => negb (greenland_loop_key (fst kv))) d.

(** The entries of a dictionary whose key comes before [k], respectively
    after [k], in the order of keys. *)
Definition entries_before (k : string) (d : dict) : dict :=
  filter (fun kv => String.ltb (fst kv) k) d.

Definition entries_after (k : string) (d : dict) : dict :=
  filter (fun kv => String.ltb k (fst kv)) d.

(** ** [dict2str] *)

(** Modelled from the spec: the token of one entry, [-key value]: a dash,
    the key, a space and the value as string interpolation gives it. *)
Definition flag_token (kv : string * value) : string :=
  "-" ++ fst kv ++ " " ++ py_str (snd kv).

(** Modelled from the spec: the tokens of a dictionary, one for every
    entry that is not skipped, in the order of the dictionary.  [skip]
    tells the values that are skipped. *)
Definition flag_tokens (skip : value -> bool) (d : dict) : list string :=
  map flag_token (filter (fun kv => negb (skip (snd kv))) d).

(** Modelled from the spec: [dict2str] is imported from
    [pism_tutorials.utils], whose source is missing.  The specification
    has it render a dictionary to a single string of [-key value] tokens,
    with no escaping, validation or coercion beyond string interpolation,
    skipping the keys whose value is empty or [None]: that is
    [dict2str_spec is_empty_value].  The renderer [dicts2str] that the
    climate-forcing notebook defines for itself skips nothing, and the
    statements about [dict2str_spec] are made for every [skip]. *)
Definition dict2str_spec (skip : value -> bool) (d : dict) : string :=
  str_join " " (flag_tokens skip d).

(** *** The Greenland notebook's configuration *)
Module Greenland.

Definition resolution : string := "4500m".
Definition output_dir : string := "test_run".
Definition extra_file : string := EmptyString.
Definition start : string := "2015-01-01".
Definition end_ : string := "2100-01-01".

Definition input_params : dict :=
  [ ("bootstrap", VStr EmptyString);
    ("i", VStr "tutorial_files/g1200m_id_BAYES-MEDIAN_1980-1-1_1984-12-31.nc");
    ("input.regrid.file",
     VStr "tutorial_files/g1200m_id_BAYES-MEDIAN_1980-1-1_1984-12-31.nc");
    ("input.regrid.vars",
     VStr "litho_temp,enthalpy,age,tillwat,bmelt,ice_area_specific_volume,thk") ].

Definition grid_params : dict :=
  [ ("grid.dx", VStr resolution);
    ("grid.dy", VStr resolution);
    ("grid.Mz", VInt 101);
    ("grid.Lz", VInt 4000);
    ("grid.Mbz", VInt 11);
    ("grid.Lbz", VInt 1000) ].

Definition time_params : dict :=
  [ ("time.start", VStr start);
    ("time.end", VStr end_);
    ("time.calendar", VStr "standard");
    ("time_stepping.skip.enabled", VStr EmptyString);
    ("time_stepping.skip.max", VInt 100) ].

Definition climate_params : dict :=
  [ ("surface.models", VStr "ismip6");
    ("surface.ismip6.reference_file",
     VStr "tutorial_files/MARv3.9_ERAI_climate_1978-2018_MEAN.nc");
    ("surface.ismip6.file", VStr EmptyString) ].

Definition stress_balance : dict :=
  [ ("stress.balance", VStr "ssa+sia");
    ("stress_balance.calving_front_stress_bc", VStr EmptyString);
    ("stress_balance.ice_free_thickness_standard", VInt 5);
    ("stress_balance.sia.enhancement_factor", VFloat "2.608046");
    ("stress_balance.sia.flow_law", VStr "gpbld");
    ("stress_balance.ssa.Glen_exponent", VFloat "3.309718");
    ("stress_balance.ssa.enhancement_factor", VFloat "1.0");
    ("basal_resistance.pseudo_plastic.enabled", VStr EmptyString);
    ("basal_resistance.pseudo_plastic.q", VFloat "0.7508221");
    ("basal_yield_stress.mohr_coulomb.till_effective_fraction_overburden",
     VFloat "0.01845403");
    ("basal_yield_stress.mohr_coulomb.topg_to_phi.enabled", VStr EmptyString);
    ("basal_yield_stress.mohr_coulomb.topg_to_phi.phi_max", VFloat "42.79528");
    ("basal_yield_stress.mohr_coulomb.topg_to_phi.phi_min", VFloat "7.193718");
    ("basal_yield_stress.mohr_coulomb.topg_to_phi.topg_max", VFloat "243.8239");
    ("basal_yield_stress.mohr_coulomb.topg_to_phi.topg_min", VFloat "-369.6359") ].

Definition output_params : dict :=
  [ ("output.extra.file", VStr extra_file);
    ("output.extra.times", VStr "yearly");
    ("output.extra.vars",
     VStr "velsurf_mag,usurf,thk,climatic_mass_balance,ice_surface_temp,mask,mass_fluxes,ice_mass_transport_across_grounding_line,ice_mass");
    ("output.size", VStr "none") ].

Definition run_dict0 : dict :=
  merge_dicts [input_params; grid_params; time_params; stress_balance;
               climate_params; output_params].

Definition climate_files : list string :=
  [ "tutorial_files/MARv3.9_MIROC5-rcp26_climate_1960-2100_v1.nc";
    "tutorial_files/MARv3.9_MIROC5-rcp85_climate_1960-2100_v1.nc" ].

(** [zip([26, 85], climate_files)] *)
Definition iterations : list (Z * string) := combine [26; 85] climate_files.

End Greenland.

(** *** The climate-forcing notebook

    One cell assigns a command line, written out by hand, to [f] (twice;
    the second assignment stands) and the next cell is the line [!$f].
    A later cell defines three dictionaries and calls
    [dicts2str(grid_params, time_params)]. *)
Module ClimateForcing.

Definition f : string :=
  "mpirun -np 8 pism -bootstrap  -time.calendar standard -time.start 2008-01-01 -time.end 2018-01-01 -surface.models ismip6 -surface.ismip6.reference_file g1200m_id_BAYES-MEDIAN_1980-1-1_1984-12-31.nc -surface.ismip6.file MARv3.9_ACCESS1.3-rcp85_climate_1960-2100_v1.nc  -i g1200m_id_BAYES-MEDIAN_1980-1-1_1984-12-31.nc  -input.regrid.file g1200m_id_BAYES-MEDIAN_1980-1-1_1984-12-31.nc -input.regrid.vars litho_temp,enthalpy,age,tillwat,bmelt,ice_area_specific_volume,thk -grid.file pism-bedmachine.nc -grid.dx 3600m -grid.dy 3600m -grid.Mz 101 -grid.Lz 4000 -grid.Mbz 11 -grid.Lbz 1000".


Definition resolution : string := "3600m".

Definition grid_params : dict :=
  [ ("grid.dx", VStr resolution);
    ("grid.dy", VStr resolution);
    ("grid.Mz", VInt 101);
    ("grid.Lz", VInt 4000);
    ("grid.Mbz", VInt 11);
    ("grid.Lbz", VInt 1000);
    ("input.regrid.vars",
     VStr "litho_temp,enthalpy,age,tillwat,bmelt,ice_area_specific_volume,thk") ].

Definition time_params : dict :=
  [ ("time.start", VStr "2015-01-01");
    ("time.end", VStr "2099-31-12") ].

Definition climate_params : dict :=
  [ ("surface.models", VStr "ismip6");
    ("surface.ismip6.reference_file",
     VStr "g1200m_id_BAYES-MEDIAN_1980-1-1_1984-12-31.nc");
    ("surface.ismip6.file",
     VStr "MARv3.9_ACCESS1.3-rcp85_climate_1960-2100_v1.nc") ].

End ClimateForcing.

(** The dictionaries [run_dict] goes through in the whole basin loop. *)
Fixpoint basin_loop_dicts (output_dir resolution : string)
    (names : list string) (samples : list (Z * dict)) (d : dict) : list dict :=
  match names with
  | [] => []
  | name :: rest =>
      let ds := basin_dicts output_dir resolution name samples d in
      (ds ++ basin_loop_dicts output_dir resolution rest samples (last ds d))%list
  end.

(** ** The MISMIP+ bed *)
Module Mismip.
#[local] Open Scope R_scope.

(** [Bx] and [By] with their parameters explicit; [**] is a power with a
    literal exponent. *)
Definition Bx (x B0 B2 B4 B6 x_bar : R) : R :=
  B0 + B2 * (x / x_bar) ^ 2 + B4 * (x / x_bar) ^ 4 + B6 * (x / x_bar) ^ 6.

Definition By (y Ly dc fc wc : R) : R :=
  dc / (1 + exp (-2 * (y - Ly / 2 - wc) / fc))
  + dc / (1 + exp (2 * (y - Ly / 2 + wc) / fc)).

(** The default values of the parameters. *)
Definition B0 : R := -150.
Definition B2 : R := -7288 / 10.
Definition B4 : R := 34391 / 100.
Definition B6 : R := -5057 / 100.
Definition x_bar : R := 300000.
Definition Ly : R := 80000.
Definition dc : R := 500.
Definition fc : R := 4000.
Definition wc : R := 24000.

(** [Bx(x)] and [By(y)] as the notebook calls them. *)
Definition Bx_default (x : R) : R := Bx x B0 B2 B4 B6 x_bar.
Definition By_default (y : R) : R := By y Ly dc fc wc.

End Mismip.

(** ** More of the run cells *)

(** [s[:-1]]: the string without its last character; the empty string
    stays empty. *)
Fixpoint str_init (s : string) : string :=
  match s with
  | EmptyString => EmptyString
  | String c EmptyString => EmptyString
  | String c rest => String c (str_init rest)
  end.

(** The file the Greenland loop has PISM write for one value of [rcp]:
    [Path(output_dir) / f"spatial_g{resolution}_rcp_{rcp}_{start}_{end}.nc"]. *)
Definition greenland_extra_file (output_dir resolution start end_ : string)
    (rcp : Z) : string :=
  path_join output_dir
    ("spatial_g" ++ resolution ++ "_rcp_" ++ str_of_int rcp ++ "_"
     ++ start ++ "_" ++ end_ ++ ".nc").

(** The three files of one run of the basin loop. *)
Definition basin_grid_file (name : string) : string :=
  "domain_" ++ name ++ ".nc".

Definition basin_state_file (output_dir resolution name : string) (s_id : Z)
    : string :=
  path_join output_dir
    ("state_g" ++ resolution ++ "_sector_" ++ name ++ "_id_"
     ++ str_of_int s_id ++ ".nc").

Definition basin_spatial_file (output_dir resolution name : string)
    (s_id : Z) : string :=
  path_join output_dir
    ("spatial_g" ++ resolution ++ "_sector_" ++ name ++ "_id_"
     ++ str_of_int s_id ++ ".nc").

(** The keys the basin loop stores after the sample. *)
Definition basin_loop_key (k : string) : bool :=
  String.eqb k "grid.file" || String.eqb k "output.file"
  || String.eqb k "output.extra.file".

(** *** The basin notebook's configuration *)
Module Basins.

Definition resolution : string := "3600m".
Definition output_dir : string := "testing_" ++ resolution.

Definition stress_balance : dict :=
  [ ("stress_balance", VStr "ssa+sia");
    ("stress_balance.calving_front_stress_bc", VStr EmptyString);
    ("stress_balance.ice_free_thickness_standard", VInt 5);
    ("stress_balance.sia.bed_smoother.range", VStr (str_init resolution));
    ("stress_balance.sia.enhancement_factor", VFloat "2.608046");
    ("stress_balance.sia.flow_law", VStr "gpbld");
    ("stress_balance.ssa.Glen_exponent", VFloat "3.309718");
    ("stress_balance.ssa.enhancement_factor", VFloat "1.0");
    ("stress_balance.sia.max_diffusivity", VInt 100000);
    ("basal_resistance.pseudo_plastic.enabled", VStr "yes");
    ("basal_resistance.pseudo_plastic.q", VFloat "0.7508221");
    ("basal_yield_stress.mohr_coulomb.till_effective_fraction_overburden",
     VFloat "0.01845403");
    ("basal_yield_stress.mohr_coulomb.topg_to_phi.enabled", VStr "yes");
    ("basal_yield_stress.mohr_coulomb.topg_to_phi.phi_max", VFloat "42.79528");
    ("basal_yield_stress.mohr_coulomb.topg_to_phi.phi_min", VFloat "7.193718");
    ("basal_yield_stress.mohr_coulomb.topg_to_phi.topg_max", VFloat "243.8239");
    ("basal_yield_stress.mohr_coulomb.topg_to_phi.topg_min", VFloat "-369.6359") ].

(** The one row of [median_df], as [sample.to_dict()] gives it back. *)
Definition flow_params_median : dict :=
  [ ("basal_resistance.pseudo_plastic.q", VFloat "0.7508221");
    ("basal_yield_stress.mohr_coulomb.till_effective_fraction_overburden",
     VFloat "0.01845403");
    ("basal_yield_stress.mohr_coulomb.topg_to_phi.phi_max", VFloat "42.79528");
    ("basal_yield_stress.mohr_coulomb.topg_to_phi.phi_min", VFloat "7.193718");
    ("basal_yield_stress.mohr_coulomb.topg_to_phi.topg_max", VFloat "243.8239");
    ("basal_yield_stress.mohr_coulomb.topg_to_phi.topg_min", VFloat "-369.6359");
    ("stress_balance.sia.enhancement_factor", VFloat "2.608046");
    ("stress_balance.ssa.Glen_exponent", VFloat "3.309718") ].

End Basins.

(** ** Reading the basin back from a file name

    The results cell recovers the basin of a state file with
    [re.search("sector_(.+?)_", str(state_file)).group(1)].  The pattern
    is the text [sector_], a group of one or more characters other than a
    newline, taken as short as possible, and an underscore; [re.search]
    takes the leftmost position where it matches.  There is no result when
    nothing matches ([group] then fails on [None]). *)

Definition newline : ascii := "010"%char.







(** ** The list of files to download (climate-forcing notebook)

    For every entry of [tutorial_files], in order, and every file of its
    list: make the directory, join directory and file, append the path.
    The directories are kept as the sequence of [mkdir] calls. *)

Record forcing : Type := mkForcing {
  forcing_path : string;
  forcing_files : list string
}.

Definition download_step (path : string) (acc : list string * list string)
    (f : string) : list string * list string :=
  let '(to_download, mkdirs) := acc in
  let d := path in
  let mkdirs' := (mkdirs ++ [d])%list in
  let p := path_join d f in
  ((to_download ++ [p])%list, mkdirs').

Definition collect_downloads (tutorial_files : list (string * forcing))
    : list string * list string :=
  fold_left
    (fun acc entry =>
       let forcing := snd entry in
       fold_left (download_step (forcing_path forcing))
                 (forcing_files forcing) acc)
    tutorial_files ([], []).

(** ** Rotations of the clipped states (basin notebook)

    Every pass of the loop appends [list(dq)] to [rotations], merges the
    states of the deque with [xr.merge], gives the result a new dimension
    [sector] with [expand_dims], appends it to [ms] and rotates the deque:
    [dq.rotate(-1)] moves the first element to the end.  The calls of
    xarray may raise; an exception ends the cell and leaves the variables
    as they are at that point. *)

Definition rotate_left1 {A : Type} (dq : list A) : list A :=
  match dq with
  | [] => []
  | x :: rest => (rest ++ [x])%list
  end.

(** The variables of the cell. *)
Record rotation_state (A M : Type) : Type := mkRotation {
  rotations : list (list A);
  ms : list M;
  dq : list A
}.

Arguments mkRotation {A M}.
Arguments rotations {A M}.
Arguments ms {A M}.
Arguments dq {A M}.

(** How the cell ends: it runs to its end, or an exception is raised. *)
Inductive cell_end (S : Type) : Type :=
| Finished (s : S)
| Raised (s : S).

Arguments Finished {S}.
Arguments Raised {S}.

(** The loop with [n] passes to go, the next for the index [k].
    [merge_expand k states] is the dataset that pass [k] makes of the
    states of the deque, or [None] when making it raises. *)
Fixpoint rotation_loop {A M : Type}
    (merge_expand : nat -> list A -> option M) (n k : nat)
    (st : rotation_state A M) : cell_end (rotation_state A M) :=
  match n with
  | O => Finished st
  | S n' =>
      let rotations' := (rotations st ++ [dq st])%list in
      match merge_expand k (dq st) with
      | None =>
          Raised {| rotations := rotations'; ms := ms st; dq := dq st |}
      | Some m =>
          rotation_loop merge_expand n' (S k)
            {| rotations := rotations'; ms := (ms st ++ [m])%list;
               dq := rotate_left1 (dq st) |}
      end
  end.

Definition rotations_cell {A M : Type}
    (merge_expand : nat -> list A -> option M) (states_clipped : list A)
    : cell_end (rotation_state A M) :=
  rotation_loop merge_expand (List.length states_clipped) 0
    {| rotations := []; ms := []; dq := states_clipped |}.

(** What the two calls look at is the names of the dimensions of a
    dataset.  [xr.merge] gives a dataset with the dimensions of all its
    arguments.  [ds.expand_dims(name)] raises [ValueError] when [ds] has a
    dimension of that name already, and puts the new dimension first
    otherwise. *)
Definition xr_merge_dims (datasets : list (list string)) : list string :=
  nodup string_dec (List.concat datasets).

Definition expand_dims (name : string) (dims : list string)
    : option (list string) :=
  if existsb (String.eqb name) dims then None else Some (name :: dims).

(** The body of the loop on the dimensions of the states. *)
Definition merge_expand_dims (k : nat) (states : list (list string))
    : option (list string) :=
  expand_dims "sector" (xr_merge_dims states).

(** ** [check_params] (basin notebook)

    The texts given to [print], in order: a heading, a rule, one line for
    every key of [d] that the configuration lacks, a rule.  Whether the
    opened configuration has an attribute is the function [has_attr]. *)

Definition rule60 : string :=
  "------------------------------------------------------------".

Definition not_found_line (key : string) : string :=
  "  - " ++ key ++ " not found in pism_config".

Definition check_params (has_attr : string -> bool) (d : dict) : list string :=
  ([String newline "Checking parameters"; rule60]
   ++ map not_found_line
          (filter (fun key => Bool.eqb (has_attr key) false) (dict_keys d))
   ++ [(rule60 ++ String newline EmptyString)%string])%list.

(** ** Grids *)
Module Grid.
#[local] Open Scope Q_scope.

(** [np.arange(start, stop, step)], arithmetic being exact: the values
    [start + i * step] for [i] below the ceiling of
    [(stop - start) / step]; none when that is not positive. *)
Definition arange (start stop step : Q) : list Q :=
  map (fun i => start + inject_Z (Z.of_nat i) * step)
      (seq 0 (Z.to_nat (Qceiling ((stop - start) / step)))).

(** The cell centres the basin notebook plots for one grid spacing [dr]:
    [np.arange(x_bounds[0] + dr/2, x_bounds[1], dr)]. *)
Definition cell_centres (x0 x1 : Q) (dr : Q) : list Q :=
  arange (x0 + dr / 2) x1 dr.

End Grid.

(** ** The MISMIP+ fields

    The arrays of the notebook, as functions of the coordinates of a grid
    point. *)
Module MismipFields.
#[local] Open Scope R_scope.

Definition Lx : R := 640000.
Definition bed_deep : R := -720.

(** [bed = np.maximum(Bx(X) + By(Y), bed_deep)], then
    [bed[X>Lx] = bed_deep], then [bed[X>Lx+140e3] = -800]. *)
Definition bed (x y : R) : R :=
  if Rlt_dec (Lx + 140000) x then -800
  else if Rlt_dec Lx x then bed_deep
  else Rmax (Mismip.Bx_default x + Mismip.By_default y) bed_deep.

(** [liafr = np.zeros_like(bed)], then [liafr[X<=Lx] = 1]. *)
Definition liafr (x : R) : R := if Rle_dec x Lx then 1 else 0.

(** [basins = np.zeros_like(bed)], then [basins[X<Lx+140e3] = 1]. *)
Definition basins (x : R) : R := if Rlt_dec x (Lx + 140000) then 1 else 0.

(** [to = np.zeros_like(bed)], then [to[X<=Lx+140e3] = 1]. *)
Definition to (x : R) : R := if Rle_dec x (Lx + 140000) then 1 else 0.

End MismipFields.

(** [zip([26, 85], climate_files)] for any list of climate files. *)
Definition greenland_iterations (climate_files : list string)
    : list (Z * string) :=
  combine [26; 85] climate_files.

(* ================================================================= *)
(** * Part II: properties *)
(* ================================================================= *)

(** ** Strings and joins *)

Lemma str_app_nil_r (s : string) : s ++ EmptyString = s.
Proof. induction s as [|c s IH]; simpl; [reflexivity | now rewrite IH]. Qed.

Lemma str_app_assoc (s t u : string) : (s ++ t) ++ u = s ++ (t ++ u).
Proof. induction s as [|c s IH]; simpl; [reflexivity | now rewrite IH]. Qed.

Lemma str_join_cons (sep x : string) (xs : list string) :
  str_join sep (x :: xs) =
  x ++ (match xs with [] => EmptyString | _ :: _ => sep ++ str_join sep xs end).
Proof.
  unfold str_join. destruct xs as [|y ys]; simpl.
  - now rewrite str_app_nil_r.
  - reflexivity.
Qed.

Lemma str_join_app (sep : string) (xs ys : list string) :
  str_join sep (xs ++ ys)%list =
  match xs, ys with
  | [], _ => str_join sep ys
  | _, [] => str_join sep xs
  | _ :: _, _ :: _ => str_join sep xs ++ sep ++ str_join sep ys
  end.
Proof.
  induction xs as [|x xs IH].
  - reflexivity.
  - destruct ys as [|y ys].
    + now rewrite app_nil_r.
    + change ((x :: xs) ++ y :: ys)%list with (x :: (xs ++ y :: ys))%list.
      rewrite str_join_cons, IH.
      destruct xs as [|x' xs'].
      * simpl. unfold str_join at 2. simpl. reflexivity.
      * simpl app. rewrite (str_join_cons sep x (x' :: xs')).
        now rewrite !str_app_assoc.
Qed.

(** ** [dicts2str] *)

Lemma dict_bool_false (d : dict) : dict_bool d = false <-> d = [].
Proof. destruct d; simpl; split; congruence. Qed.

Lemma d2s_nil : d2s [] = EmptyString.
Proof. reflexivity. Qed.

Lemma dicts2str_single (d : dict) : dicts2str [d] = d2s d.
Proof. destruct d as [|kv d]; reflexivity. Qed.

Lemma dicts2str_filter (args : list dict) :
  dicts2str (filter dict_bool args) = dicts2str args.
Proof.
  unfold dicts2str. f_equal. f_equal.
  induction args as [|d args IH]; simpl; [reflexivity|].
  destruct (dict_bool d) eqn:E; simpl; [rewrite E|]; now rewrite IH.
Qed.

Lemma dicts2str_drop_empty (l1 l2 : list dict) :
  dicts2str (l1 ++ [] :: l2)%list = dicts2str (l1 ++ l2)%list.
Proof. unfold dicts2str. now rewrite !filter_app. Qed.

Lemma filter_all_true {A : Type} (p : A -> bool) (l : list A) :
  forallb p l = true -> filter p l = l.
Proof.
  induction l as [|a l IH]; simpl; [reflexivity|].
  intros H. apply andb_prop in H. destruct H as [Ha Hl].
  rewrite Ha. now rewrite IH.
Qed.

Lemma d2s_app (d1 d2 : dict) :
  d2s (d1 ++ d2)%list =
  match d1, d2 with
  | [], _ => d2s d2
  | _, [] => d2s d1
  | _ :: _, _ :: _ => d2s d1 ++ " " ++ d2s d2
  end.
Proof.
  unfold d2s. rewrite map_app, str_join_app.
  destruct d1, d2; reflexivity.
Qed.

Lemma d2s_cons (kv : string * value) (d : dict) :
  d2s (kv :: d) =
  "-" ++ fst kv ++ " " ++ py_str (snd kv)
  ++ (if dict_bool d then " " ++ d2s d else EmptyString).
Proof.
  unfold d2s. simpl map. rewrite str_join_cons.
  destruct d as [|kv' d]; simpl; now rewrite !str_app_assoc.
Qed.

Example dicts2str_grid_time :
  dicts2str [ClimateForcing.grid_params; ClimateForcing.time_params]
  = "-grid.dx 3600m -grid.dy 3600m -grid.Mz 101 -grid.Lz 4000 -grid.Mbz 11 -grid.Lbz 1000 -input.regrid.vars litho_temp,enthalpy,age,tillwat,bmelt,ice_area_specific_volume,thk -time.start 2015-01-01 -time.end 2099-31-12".
Proof. reflexivity. Qed.

Example dicts2str_skips_empty_dict :
  dicts2str [[]; ClimateForcing.time_params; []]
  = "-time.start 2015-01-01 -time.end 2099-31-12".
Proof. reflexivity. Qed.

Example dicts2str_none_value :
  dicts2str [[("grid.file", VNone)]] = "-grid.file None".
Proof. reflexivity. Qed.

(** C4: one dictionary is rendered as its items' pieces, a dash, the key, a
    space and the interpolated value, in insertion order and joined by
    single spaces; a string value goes in unchanged, with no quoting or
    escaping; several dictionaries are rendered in argument order, each as
    if alone, and joined by single spaces (an argument that fails [if d]
    renders nothing and is left out of the join). *)
Theorem dicts2str_tokens_in_order :
  (forall d : dict,
      dicts2str [d] =
      str_join " " (map (fun kv => "-" ++ fst kv ++ " " ++ py_str (snd kv)) d))
  /\ (forall (k s : string), dicts2str [[(k, VStr s)]] = "-" ++ k ++ " " ++ s)
  /\ (forall args : list dict,
         dicts2str args =
         str_join " " (map (fun d => dicts2str [d]) (filter dict_bool args)))
  /\ (forall args : list dict,
         forallb dict_bool args = true ->
         dicts2str args = str_join " " (map (fun d => dicts2str [d]) args))
  /\ (forall d1 d2 : dict,
         dict_bool d1 = true -> dict_bool d2 = true ->
         dicts2str [d1; d2] = dicts2str [d1] ++ " " ++ dicts2str [d2]).
Proof.
  split; [|split; [|split; [|split]]].
  - intros d. now rewrite dicts2str_single.
  - intros k s. rewrite dicts2str_single, d2s_cons. simpl.
    now rewrite !str_app_nil_r.
  - intros args. unfold dicts2str at 1. f_equal.
    apply map_ext. intros d. now rewrite dicts2str_single.
  - intros args Hall. unfold dicts2str at 1.
    rewrite (filter_all_true dict_bool args Hall). f_equal.
    apply map_ext. intros d. now rewrite dicts2str_single.
  - intros d1 d2 H1 H2. rewrite !dicts2str_single.
    unfold dicts2str. simpl. now rewrite H1, H2.
Qed.

(** The call of the notebook, [dicts2str(grid_params, time_params)]. *)
Lemma dicts2str_tokens_in_order_witness :
  dicts2str [ClimateForcing.grid_params; ClimateForcing.time_params] =
  dicts2str [ClimateForcing.grid_params] ++ " "
  ++ dicts2str [ClimateForcing.time_params].
Proof.
  apply (proj2 (proj2 (proj2 (proj2 dicts2str_tokens_in_order))));
    reflexivity.
Defined.

(** C8: an empty dictionary is neutral for [dicts2str]: dropping one at any
    position, or all of them at once, leaves the string unchanged, and a
    call with empty dictionaries only gives the empty string. *)
Theorem dicts2str_empty_dict_neutral :
  (forall l1 l2 : list dict,
      dicts2str (l1 ++ [] :: l2)%list = dicts2str (l1 ++ l2)%list)
  /\ (forall args : list dict,
         dicts2str (filter dict_bool args) = dicts2str args)
  /\ (forall n : nat, dicts2str (repeat [] n) = EmptyString).
Proof.
  split; [exact dicts2str_drop_empty|].
  split; [exact dicts2str_filter|].
  induction n as [|n IH]; [reflexivity|].
  change (repeat [] (S n)) with (([] : list dict) ++ [] :: repeat [] n)%list.
  now rewrite dicts2str_drop_empty.
Qed.

(** C2, as stated, fails: for the dictionary with a = 1 and b empty,
    [dicts2str] gives [-a 1 -b ] with a trailing space, and [-b] is one of
    its words. *)
Lemma dicts2str_keeps_empty_value :
  dicts2str [example_a_b] = "-a 1 -b "
  /\ In "-b" (str_split " " (dicts2str [example_a_b]))
  /\ ~ skips_empty_values (fun d => dicts2str [d]).
Proof.
  split; [reflexivity|]. split; [vm_compute; tauto|].
  intros H.
  apply (H example_a_b "b" (VStr EmptyString)).
  - simpl. tauto.
  - reflexivity.
  - vm_compute. tauto.
Qed.

(** C2, amended: [dicts2str] leaves no key out.  Every entry, whatever its
    value, is rendered in place as dash, key, space, interpolated value;
    an empty string gives the key followed by a space and nothing, [None]
    gives the key followed by the word None.  The example dictionary gives
    [-a 1 -b ]. *)
Theorem dicts2str_renders_every_entry :
  (forall (d1 : dict) (k : string) (v : value) (d2 : dict),
      dicts2str [d1 ++ (k, v) :: d2]%list =
      (if dict_bool d1 then d2s d1 ++ " " else EmptyString)
      ++ ("-" ++ k ++ " " ++ py_str v)
      ++ (if dict_bool d2 then " " ++ d2s d2 else EmptyString))
  /\ py_str (VStr EmptyString) = EmptyString
  /\ py_str VNone = "None"
  /\ dicts2str [example_a_b] = "-a 1 -b ".
Proof.
  split; [|split; [|split]]; try reflexivity.
  intros d1 k v d2. rewrite dicts2str_single, d2s_app.
  destruct d1 as [|kv1 d1].
  - rewrite d2s_cons. simpl. now rewrite !str_app_assoc.
  - simpl dict_bool. cbv iota. rewrite (d2s_cons (k, v) d2). simpl fst. simpl snd.
    now rewrite !str_app_assoc.
Qed.

(** ** Dictionary operations *)

Lemma dict_get_None (k : string) (d : dict) :
  dict_get k d = None <-> ~ In k (dict_keys d).
Proof.
  induction d as [|[k' v'] d IH]; simpl.
  - tauto.
  - destruct (String.eqb_spec k k') as [->|Hne].
    + split; [discriminate | intros H; exfalso; apply H; now left].
    + rewrite IH. split.
      * intros H [E|I]; [now apply Hne | now apply H].
      * intros H I. apply H. now right.
Qed.

Lemma dict_get_Some_In (k : string) (v : value) (d : dict) :
  dict_get k d = Some v -> In (k, v) d.
Proof.
  induction d as [|[k' v'] d IH]; simpl; [discriminate|].
  destruct (String.eqb_spec k k') as [->|Hne].
  - intros [= ->]. now left.
  - intros H. right. now apply IH.
Qed.

Lemma dict_get_In (k : string) (v : value) (d : dict) :
  wf_dict d -> In (k, v) d -> dict_get k d = Some v.
Proof.
  unfold wf_dict.
  induction d as [|[k' v'] d IH]; simpl; [tauto|].
  intros Hwf [E|I].
  - injection E as -> ->. now rewrite String.eqb_refl.
  - inversion Hwf as [|? ? Hnotin Hnd]; subst.
    destruct (String.eqb_spec k k') as [->|Hne].
    + exfalso. apply Hnotin. apply (in_map fst) in I. exact I.
    + now apply IH.
Qed.

Lemma dict_get_set_eq (k : string) (v : value) (d : dict) :
  dict_get k (dict_set k v d) = Some v.
Proof.
  induction d as [|[k' v'] d IH]; simpl.
  - now rewrite String.eqb_refl.
  - destruct (String.eqb_spec k k') as [->|Hne]; simpl.
    + now rewrite String.eqb_refl.
    + destruct (String.eqb_spec k k'); [contradiction | exact IH].
Qed.

Lemma dict_get_set_ne (k k' : string) (v : value) (d : dict) :
  k <> k' -> dict_get k' (dict_set k v d) = dict_get k' d.
Proof.
  intros Hne.
  induction d as [|[k0 v0] d IH]; simpl.
  - destruct (String.eqb_spec k' k); [congruence | reflexivity].
  - destruct (String.eqb_spec k k0) as [->|Hne0]; simpl.
    + destruct (String.eqb_spec k' k0); [congruence | reflexivity].
    + now rewrite IH.
Qed.

Lemma dict_keys_set_old (k : string) (v : value) (d : dict) :
  In k (dict_keys d) -> dict_keys (dict_set k v d) = dict_keys d.
Proof.
  induction d as [|[k' v'] d IH]; simpl; [tauto|].
  intros HIn.
  destruct (String.eqb_spec k k') as [->|Hne]; simpl; [reflexivity|].
  f_equal. apply IH. destruct HIn; [congruence | assumption].
Qed.

Lemma dict_keys_set_new (k : string) (v : value) (d : dict) :
  ~ In k (dict_keys d) -> dict_keys (dict_set k v d) = (dict_keys d ++ [k])%list.
Proof.
  induction d as [|[k' v'] d IH]; simpl; [reflexivity|].
  intros HnIn.
  destruct (String.eqb_spec k k') as [->|Hne]; simpl.
  - exfalso. apply HnIn. now left.
  - f_equal. apply IH. intros I. apply HnIn. now right.
Qed.

Lemma wf_dict_set (k : string) (v : value) (d : dict) :
  wf_dict d -> wf_dict (dict_set k v d).
Proof.
  unfold wf_dict. intros Hwf.
  destruct (in_dec string_dec k (dict_keys d)) as [HIn|HnIn].
  - now rewrite dict_keys_set_old.
  - rewrite dict_keys_set_new by assumption.
    apply NoDup_app; [assumption | repeat constructor; simpl; tauto |].
    intros x Hx [<-|[]]. contradiction.
Qed.

Lemma wf_dict_update (d other : dict) :
  wf_dict d -> wf_dict (dict_update d other).
Proof.
  unfold dict_update. revert d.
  induction other as [|[k v] other IH]; simpl; intros d Hwf; [assumption|].
  apply IH. now apply wf_dict_set.
Qed.

Lemma dict_get_update (k : string) (d other : dict) :
  wf_dict other ->
  dict_get k (dict_update d other) =
  match dict_get k other with
  | Some v => Some v
  | None => dict_get k d
  end.
Proof.
  unfold dict_update, wf_dict. revert d.
  induction other as [|[k1 v1] other IH]; simpl; intros d Hwf; [reflexivity|].
  inversion Hwf as [|? ? Hnotin Hnd]; subst.
  rewrite IH by assumption.
  destruct (String.eqb_spec k k1) as [->|Hne].
  - apply dict_get_None in Hnotin. rewrite Hnotin.
    apply dict_get_set_eq.
  - rewrite dict_get_set_ne by congruence. reflexivity.
Qed.

(** A dictionary written out as a literal with distinct keys is
    well-formed. *)
Ltac wf_literal :=
  unfold wf_dict, dict_keys; repeat constructor; simpl; intuition discriminate.

Example wf_grid_params : wf_dict ClimateForcing.grid_params.
Proof. wf_literal. Qed.

Example dict_set_keeps_position :
  dict_set "grid.dx" (VStr "2km") ClimateForcing.grid_params
  = ("grid.dx", VStr "2km") :: tl ClimateForcing.grid_params.
Proof. reflexivity. Qed.

Example dict_set_appends :
  dict_keys (dict_set "grid.file" VNone ClimateForcing.time_params)
  = ["time.start"; "time.end"; "grid.file"].
Proof. reflexivity. Qed.

(** ** [merge_dicts] *)

Lemma last_binding_None (k : string) (ds : list dict) :
  last_binding k ds = None <-> Forall (fun d => dict_get k d = None) ds.
Proof.
  induction ds as [|d ds IH]; simpl.
  - split; [constructor | reflexivity].
  - destruct (last_binding k ds) as [v|].
    + split; [discriminate|]. intros H. inversion H; subst.
      destruct IH as [_ IH]. now apply IH.
    + split.
      * intros H. constructor; [assumption | now apply IH].
      * intros H. now inversion H.
Qed.

Lemma last_binding_Some (k : string) (v : value) (ds : list dict) :
  last_binding k ds = Some v <->
  exists l1 d l2,
    ds = (l1 ++ d :: l2)%list /\ dict_get k d = Some v
    /\ Forall (fun d' => dict_get k d' = None) l2.
Proof.
  split.
  - induction ds as [|d ds IH]; simpl; [discriminate|].
    destruct (last_binding k ds) as [v'|] eqn:E.
    + intros [= ->]. destruct (IH eq_refl) as (l1 & d' & l2 & -> & Hd & Hl2).
      now exists (d :: l1), d', l2.
    + intros Hd. exists [], d, ds. repeat split; try assumption.
      now apply last_binding_None.
  - intros (l1 & d & l2 & -> & Hd & Hl2).
    induction l1 as [|d1 l1 IH]; simpl.
    + apply last_binding_None in Hl2. now rewrite Hl2.
    + now rewrite IH.
Qed.

Lemma dict_get_fold_update (k : string) (ds : list dict) (acc : dict) :
  Forall wf_dict ds ->
  dict_get k (fold_left dict_update ds acc) =
  match last_binding k ds with
  | Some v => Some v
  | None => dict_get k acc
  end.
Proof.
  revert acc.
  induction ds as [|d ds IH]; simpl; intros acc Hwf; [reflexivity|].
  inversion Hwf; subst.
  rewrite IH by assumption.
  destruct (last_binding k ds); [reflexivity|].
  now apply dict_get_update.
Qed.

Lemma wf_fold_update (ds : list dict) (acc : dict) :
  wf_dict acc -> wf_dict (fold_left dict_update ds acc).
Proof.
  revert acc.
  induction ds as [|d ds IH]; simpl; intros acc Hwf; [assumption|].
  apply IH. now apply wf_dict_update.
Qed.

Lemma wf_merge_dicts (ds : list dict) : wf_dict (merge_dicts ds).
Proof. apply wf_fold_update. constructor. Qed.

Lemma dict_get_merge_dicts (k : string) (ds : list dict) :
  Forall wf_dict ds -> dict_get k (merge_dicts ds) = last_binding k ds.
Proof.
  intros Hwf. unfold merge_dicts. rewrite dict_get_fold_update by assumption.
  now destruct (last_binding k ds).
Qed.

Example merge_greenland_size : List.length Greenland.run_dict0 = 37%nat.
Proof. reflexivity. Qed.

Example merge_greenland_grid_dx :
  dict_get "grid.dx" Greenland.run_dict0 = Some (VStr "4500m").
Proof. reflexivity. Qed.

(** C1: the merged dictionary has every key once; a key is bound in it
    exactly when some input binds it, and then to the value of the last
    input that has the key.  For two dictionaries sharing a key, the
    second one's value is the result's. *)
Theorem merge_dicts_last_write_wins (ds : list dict) :
  Forall wf_dict ds ->
  wf_dict (merge_dicts ds)
  /\ (forall k : string,
         In k (dict_keys (merge_dicts ds)) <->
         exists d, In d ds /\ In k (dict_keys d))
  /\ (forall (k : string) (v : value),
         dict_get k (merge_dicts ds) = Some v <->
         exists l1 d l2,
           ds = (l1 ++ d :: l2)%list /\ dict_get k d = Some v
           /\ Forall (fun d' => dict_get k d' = None) l2)
  /\ (forall (D1 D2 : dict) (k : string) (v1 v2 : value),
         ds = [D1; D2] ->
         dict_get k D1 = Some v1 -> dict_get k D2 = Some v2 -> v1 <> v2 ->
         dict_get k (merge_dicts ds) = Some v2).
Proof.
  intros Hwf.
  split; [apply wf_merge_dicts|].
  split; [|split].
  - intros k. split.
    + intros HIn.
      destruct (dict_get k (merge_dicts ds)) as [v|] eqn:E.
      * rewrite dict_get_merge_dicts in E by assumption.
        apply last_binding_Some in E.
        destruct E as (l1 & d & l2 & -> & Hd & _).
        exists d. split; [apply in_elt|].
        apply dict_get_Some_In in Hd. apply (in_map fst) in Hd. exact Hd.
      * apply dict_get_None in E. contradiction.
    + intros (d & Hd & Hk).
      destruct (dict_get k (merge_dicts ds)) as [v|] eqn:E.
      * apply dict_get_Some_In in E. apply (in_map fst) in E. exact E.
      * rewrite dict_get_merge_dicts in E by assumption.
        apply last_binding_None in E.
        rewrite Forall_forall in E. specialize (E d Hd).
        apply dict_get_None in E. contradiction.
  - intros k v. rewrite dict_get_merge_dicts by assumption.
    apply last_binding_Some.
  - intros D1 D2 k v1 v2 -> H1 H2 _.
    rewrite dict_get_merge_dicts by assumption.
    simpl. now rewrite H2.
Qed.

(** Two dictionaries that both set [grid.dx]: the merge has the second
    one's value. *)
Lemma merge_dicts_last_write_wins_witness :
  dict_get "grid.dx"
    (merge_dicts [[("grid.dx", VStr "4500m"); ("grid.Mz", VInt 101)];
                  [("grid.dx", VStr "2km")]])
  = Some (VStr "2km").
Proof.
  refine (proj2 (proj2 (proj2
    (merge_dicts_last_write_wins
       [[("grid.dx", VStr "4500m"); ("grid.Mz", VInt 101)];
        [("grid.dx", VStr "2km")]] _)))
    _ _ "grid.dx" (VStr "4500m") (VStr "2km") eq_refl eq_refl eq_refl _).
  - repeat constructor; simpl; intuition congruence.
  - discriminate.
Defined.

(** ** The order on keys *)

Lemma leb_iff (a b : string) :
  String.leb a b = true <-> a = b \/ String_as_OT.lt a b.
Proof.
  unfold String.leb.
  destruct (String.compare a b) eqn:E.
  - apply String_as_OT.cmp_eq in E. tauto.
  - apply String_as_OT.cmp_lt in E. tauto.
  - split; [discriminate|].
    intros [->|Hlt].
    + assert (String_as_OT.cmp b b = Eq) as H by now apply String_as_OT.cmp_eq.
      unfold String_as_OT.cmp in H. congruence.
    + apply String_as_OT.cmp_lt in Hlt.
      unfold String_as_OT.cmp in Hlt. congruence.
Qed.

Lemma ltb_iff (a b : string) :
  String.ltb a b = true <-> String_as_OT.lt a b.
Proof.
  unfold String.ltb. rewrite <- String_as_OT.cmp_lt. unfold String_as_OT.cmp.
  destruct (String.compare a b); split; congruence.
Qed.

Lemma leb_trans (a b c : string) :
  String.leb a b = true -> String.leb b c = true -> String.leb a c = true.
Proof.
  rewrite !leb_iff.
  intros [->|Hab] [->|Hbc]; auto.
  right. eapply String_as_OT.lt_trans; eassumption.
Qed.

Lemma leb_neq_ltb (a b : string) :
  String.leb a b = true -> a <> b -> String.ltb a b = true.
Proof. rewrite leb_iff, ltb_iff. tauto. Qed.

(** ** [sort_dict_by_key] *)

Lemma insert_by_key_perm (kv : string * value) (d : dict) :
  Permutation (kv :: d) (insert_by_key kv d).
Proof.
  induction d as [|kv' d IH]; simpl; [apply Permutation_refl|].
  destruct (String.leb (fst kv) (fst kv')); [apply Permutation_refl|].
  eapply perm_trans; [apply perm_swap|]. now apply perm_skip.
Qed.

Lemma sort_dict_by_key_perm (d : dict) : Permutation d (sort_dict_by_key d).
Proof.
  induction d as [|kv d IH]; simpl; [constructor|].
  eapply perm_trans; [apply perm_skip, IH | apply insert_by_key_perm].
Qed.

Lemma insert_by_key_sorted (kv : string * value) (d : dict) :
  StronglySorted key_le d -> StronglySorted key_le (insert_by_key kv d).
Proof.
  induction d as [|kv' d IH]; simpl; intros Hs.
  - repeat constructor.
  - inversion Hs as [|? ? Hs' Hall]; subst.
    destruct (String.leb (fst kv) (fst kv')) eqn:E.
    + constructor; [assumption|].
      constructor; [exact E|].
      rewrite Forall_forall in *. intros x Hx.
      unfold key_le in *. eapply leb_trans; [exact E | now apply Hall].
    + constructor; [now apply IH|].
      rewrite Forall_forall in *. intros x Hx.
      apply (Permutation_in _ (Permutation_sym (insert_by_key_perm kv d))) in Hx.
      destruct Hx as [<-|Hx]; [|now apply Hall].
      unfold key_le.
      destruct (String.leb_total (fst kv') (fst kv)) as [H|H]; [exact H|congruence].
Qed.

Lemma sort_dict_by_key_sorted (d : dict) :
  StronglySorted key_le (sort_dict_by_key d).
Proof.
  induction d as [|kv d IH]; simpl; [constructor|].
  now apply insert_by_key_sorted.
Qed.

Lemma wf_dict_perm (d1 d2 : dict) :
  Permutation d1 d2 -> wf_dict d1 -> wf_dict d2.
Proof.
  unfold wf_dict, dict_keys. intros HP.
  apply Permutation_NoDup. now apply Permutation_map.
Qed.

Lemma dict_get_perm (d1 d2 : dict) :
  Permutation d1 d2 -> wf_dict d1 -> same_mapping d1 d2.
Proof.
  intros HP Hwf k.
  assert (wf_dict d2) as Hwf2 by (eapply wf_dict_perm; eassumption).
  destruct (dict_get k d1) as [v|] eqn:E1.
  - symmetry. apply dict_get_In; [assumption|].
    eapply Permutation_in; [eassumption|]. now apply dict_get_Some_In.
  - destruct (dict_get k d2) as [v|] eqn:E2; [|reflexivity].
    apply dict_get_Some_In in E2.
    apply (Permutation_in _ (Permutation_sym HP)) in E2.
    apply (dict_get_In _ _ _ Hwf) in E2. congruence.
Qed.

Lemma same_mapping_perm (d1 d2 : dict) :
  wf_dict d1 -> wf_dict d2 -> same_mapping d1 d2 -> Permutation d1 d2.
Proof.
  intros H1 H2 Hsame.
  apply NoDup_Permutation.
  - eapply NoDup_map_inv. exact H1.
  - eapply NoDup_map_inv. exact H2.
  - intros [k v]. split; intros HIn.
    + apply dict_get_Some_In. rewrite <- Hsame. now apply dict_get_In.
    + apply dict_get_Some_In. rewrite Hsame. now apply dict_get_In.
Qed.

Lemma sorted_by_key_unique (l1 l2 : dict) :
  StronglySorted key_le l1 -> StronglySorted key_le l2 ->
  wf_dict l1 -> Permutation l1 l2 -> l1 = l2.
Proof.
  revert l2.
  induction l1 as [|a l1 IH]; intros l2 Hs1 Hs2 Hwf HP.
  - now apply Permutation_nil in HP.
  - destruct l2 as [|b l2].
    + apply Permutation_sym, Permutation_nil in HP. discriminate.
    + inversion Hs1 as [|? ? Hs1' Hall1]; subst.
      inversion Hs2 as [|? ? Hs2' Hall2]; subst.
      inversion Hwf as [|? ? Hnotin Hnd]; subst.
      rewrite Forall_forall in Hall1, Hall2.
      assert (a = b) as ->.
      { assert (In a (b :: l2)) as Ha
            by (eapply Permutation_in; [exact HP | now left]).
        assert (In b (a :: l1)) as Hb
            by (eapply Permutation_in; [exact (Permutation_sym HP) | now left]).
        destruct Ha as [->|Ha]; [reflexivity|].
        destruct Hb as [->|Hb]; [reflexivity|].
        exfalso. apply Hnotin.
        assert (fst a = fst b) as ->
            by (apply String.leb_antisym; [now apply Hall1 | now apply Hall2]).
        now apply in_map. }
      f_equal. apply IH; try assumption.
      now apply Permutation_cons_inv in HP.
Qed.

Example sort_grid_params :
  dict_keys (sort_dict_by_key ClimateForcing.grid_params)
  = ["grid.Lbz"; "grid.Lz"; "grid.Mbz"; "grid.Mz"; "grid.dx"; "grid.dy";
     "input.regrid.vars"].
Proof. reflexivity. Qed.

Lemma sort_dict_by_key_same_mapping (d1 d2 : dict) :
  wf_dict d1 -> wf_dict d2 -> same_mapping d1 d2 ->
  sort_dict_by_key d1 = sort_dict_by_key d2.
Proof.
  intros H1 H2 Hsame.
  apply sorted_by_key_unique.
  - apply sort_dict_by_key_sorted.
  - apply sort_dict_by_key_sorted.
  - eapply wf_dict_perm; [apply sort_dict_by_key_perm | assumption].
  - eapply perm_trans; [apply Permutation_sym, sort_dict_by_key_perm|].
    eapply perm_trans; [|apply sort_dict_by_key_perm].
    now apply same_mapping_perm.
Qed.

Lemma sort_dict_by_key_get (d : dict) :
  wf_dict d -> same_mapping (sort_dict_by_key d) d.
Proof.
  intros Hwf k. symmetry.
  apply dict_get_perm; [apply sort_dict_by_key_perm | assumption].
Qed.

Lemma sort_dict_by_key_ascending (d : dict) :
  wf_dict d ->
  StronglySorted (fun a b => String.ltb a b = true)
                 (dict_keys (sort_dict_by_key d)).
Proof.
  intros Hwf.
  assert (wf_dict (sort_dict_by_key d)) as Hwf'
      by (eapply wf_dict_perm; [apply sort_dict_by_key_perm | assumption]).
  pose proof (sort_dict_by_key_sorted d) as Hs.
  induction (sort_dict_by_key d) as [|a l IH]; simpl; [constructor|].
  inversion Hs as [|? ? Hs' Hall]; subst.
  inversion Hwf' as [|? ? Hnotin Hnd]; subst.
  constructor; [now apply IH|].
  rewrite Forall_forall in *. intros k Hk.
  apply in_map_iff in Hk. destruct Hk as (x & <- & Hx).
  apply leb_neq_ltb; [now apply Hall|].
  intros E. apply Hnotin. rewrite E. now apply in_map.
Qed.

(** ** The run cells *)

Lemma dict_get_filter_keys (p : string -> bool) (k : string) (d : dict) :
  dict_get k (filter (fun kv => p (fst kv)) d) =
  if p k then dict_get k d else None.
Proof.
  induction d as [|[k' v'] d IH]; simpl.
  - now destruct (p k).
  - destruct (p k') eqn:Ek'; simpl.
    + destruct (String.eqb_spec k k') as [->|Hne].
      * now rewrite Ek'.
      * exact IH.
    + destruct (String.eqb_spec k k') as [->|Hne].
      * rewrite IH. now rewrite Ek'.
      * exact IH.
Qed.

Lemma wf_dict_filter (p : string * value -> bool) (d : dict) :
  wf_dict d -> wf_dict (filter p d).
Proof.
  unfold wf_dict, dict_keys.
  induction d as [|kv d IH]; simpl; intros Hwf; [constructor|].
  inversion Hwf as [|? ? Hnotin Hnd]; subst.
  destruct (p kv); simpl; [|now apply IH].
  constructor; [|now apply IH].
  intros HIn. apply Hnotin.
  apply in_map_iff in HIn. destruct HIn as (x & Hx & HIn).
  apply filter_In in HIn. rewrite <- Hx. apply in_map. tauto.
Qed.

Lemma StronglySorted_filter {A : Type} (R : A -> A -> Prop) (p : A -> bool)
    (l : list A) :
  StronglySorted R l -> StronglySorted R (filter p l).
Proof.
  induction 1 as [|a l Hs IH Hall]; simpl; [constructor|].
  destruct (p a); [|assumption].
  constructor; [assumption|].
  rewrite Forall_forall in *. intros x Hx.
  apply filter_In in Hx. now apply Hall.
Qed.

Lemma wf_sort_dict_by_key (d : dict) :
  wf_dict d -> wf_dict (sort_dict_by_key d).
Proof.
  intros Hwf. eapply wf_dict_perm; [apply sort_dict_by_key_perm | assumption].
Qed.

(** Dictionaries that agree away from the keys of the Greenland loop have
    the same sorted entries under the other keys. *)
Lemma other_entries_sorted_eq (d d0 : dict) :
  wf_dict d -> wf_dict d0 ->
  (forall k, greenland_loop_key k = false -> dict_get k d = dict_get k d0) ->
  other_entries (sort_dict_by_key d) = other_entries (sort_dict_by_key d0).
Proof.
  intros Hwf Hwf0 Hother. unfold other_entries.
  apply sorted_by_key_unique.
  - apply StronglySorted_filter, sort_dict_by_key_sorted.
  - apply StronglySorted_filter, sort_dict_by_key_sorted.
  - now apply wf_dict_filter, wf_sort_dict_by_key.
  - apply same_mapping_perm.
    + now apply wf_dict_filter, wf_sort_dict_by_key.
    + now apply wf_dict_filter, wf_sort_dict_by_key.
    + intros k.
      rewrite (dict_get_filter_keys (fun k => negb (greenland_loop_key k))).
      rewrite (dict_get_filter_keys (fun k => negb (greenland_loop_key k))).
      destruct (greenland_loop_key k) eqn:E; simpl; [reflexivity|].
      rewrite !sort_dict_by_key_get by assumption. now apply Hother.
Qed.

Lemma greenland_update_other (od res st en : string) (it : Z * string)
    (k : string) (d : dict) :
  greenland_loop_key k = false ->
  dict_get k (dict_update d (greenland_update od res st en it)) = dict_get k d.
Proof.
  unfold greenland_loop_key. intros Hk.
  apply orb_false_iff in Hk. destruct Hk as [H1 H2].
  apply String.eqb_neq in H1, H2.
  destruct it as [rcp file]. unfold dict_update, greenland_update. simpl.
  rewrite !dict_get_set_ne by congruence. reflexivity.
Qed.

Lemma greenland_dicts_frame (od res st en : string) (its : list (Z * string))
    (d0 : dict) :
  wf_dict d0 ->
  Forall (fun d => wf_dict d /\
                   forall k, greenland_loop_key k = false ->
                             dict_get k d = dict_get k d0)
         (greenland_dicts od res st en its d0).
Proof.
  intros Hwf0.
  assert (forall d, wf_dict d ->
            (forall k, greenland_loop_key k = false ->
                       dict_get k d = dict_get k d0) ->
            Forall (fun d' => wf_dict d' /\
                     forall k, greenland_loop_key k = false ->
                               dict_get k d' = dict_get k d0)
                   (greenland_dicts od res st en its d)) as Hgen.
  { induction its as [|it its IH]; simpl; intros d Hwf Hd; [constructor|].
    assert (wf_dict (dict_update d (greenland_update od res st en it))) as Hwf'
        by now apply wf_dict_update.
    assert (forall k, greenland_loop_key k = false ->
              dict_get k (dict_update d (greenland_update od res st en it))
              = dict_get k d0) as Hd'.
    { intros k Hk. rewrite greenland_update_other by assumption.
      now apply Hd. }
    constructor; [split; assumption|]. now apply IH. }
  now apply Hgen.
Qed.

Lemma last_cons {A : Type} (a d : A) (l : list A) :
  last (a :: l) d = last l a.
Proof.
  revert a d. induction l as [|b l IH]; intros a d; [reflexivity|].
  change (last (a :: b :: l) d) with (last (b :: l) d).
  now rewrite (IH b d), (IH b a).
Qed.

Lemma length_greenland_dicts (od res st en : string) (its : list (Z * string))
    (d : dict) :
  List.length (greenland_dicts od res st en its d) = List.length its.
Proof.
  revert d. induction its as [|it its IH]; simpl; intros d; [reflexivity|].
  now rewrite IH.
Qed.

Lemma length_basin_dicts (od res name : string) (samples : list (Z * dict))
    (d : dict) :
  List.length (basin_dicts od res name samples d) = List.length samples.
Proof.
  revert d. induction samples as [|[s_id sample] samples IH]; simpl; intros d;
    [reflexivity|].
  now rewrite IH.
Qed.

Lemma length_basin_loop_dicts (od res : string) (names : list string)
    (samples : list (Z * dict)) (d : dict) :
  List.length (basin_loop_dicts od res names samples d)
  = (List.length names * List.length samples)%nat.
Proof.
  revert d. induction names as [|name names IH]; simpl; intros d; [reflexivity|].
  now rewrite length_app, length_basin_dicts, IH.
Qed.

Section RunCellProps.

Variable dict2str : dict -> string.


Lemma greenland_loop_trace (od res st en : string) (its : list (Z * string))
    (nb : notebook) :
  let ds := greenland_dicts od res st en its (run_dict nb) in
  let nb' := greenland_loop dict2str od res st en its nb in
  run_dict nb' = last ds (run_dict nb)
  /\ issued (sh nb')
     = (issued (sh nb) ++ map (fun d => (" " ++ cmd dict2str 8 d)%string) ds)%list
  /\ outcomes (sh nb') = outcomes (sh nb).
Proof.
  unfold greenland_loop. revert nb.
  induction its as [|it its IH]; intros nb; simpl.
  - now rewrite app_nil_r.
  - destruct (IH (greenland_step dict2str od res st en nb it)) as (Hd & Hi & Ho).
    simpl in Hd, Hi, Ho.
    split; [|split].
    + rewrite Hd. symmetry. exact (last_cons _ _ _).
    + rewrite Hi. now rewrite <- app_assoc.
    + exact Ho.
Qed.

Lemma basin_inner_trace (od res name : string) (samples : list (Z * dict))
    (nb : notebook) :
  let ds := basin_dicts od res name samples (run_dict nb) in
  let nb' := fold_left (basin_step dict2str od res name) samples nb in
  run_dict nb' = last ds (run_dict nb)
  /\ issued (sh nb')
     = (issued (sh nb) ++ map (fun d => (" " ++ cmd dict2str 8 d)%string) ds)%list
  /\ outcomes (sh nb') = outcomes (sh nb).
Proof.
  revert nb.
  induction samples as [|[s_id sample] samples IH]; intros nb; simpl.
  - now rewrite app_nil_r.
  - destruct (IH (basin_step dict2str od res name nb (s_id, sample)))
      as (Hd & Hi & Ho).
    simpl in Hd, Hi, Ho.
    split; [|split].
    + rewrite Hd. symmetry. exact (last_cons _ _ _).
    + rewrite Hi. now rewrite <- app_assoc.
    + exact Ho.
Qed.

Lemma basin_loop_trace (od res : string) (names : list string)
    (samples : list (Z * dict)) (nb : notebook) :
  let ds := basin_loop_dicts od res names samples (run_dict nb) in
  let nb' := basin_loop dict2str od res names samples nb in
  issued (sh nb')
  = (issued (sh nb) ++ map (fun d => (" " ++ cmd dict2str 8 d)%string) ds)%list
  /\ outcomes (sh nb') = outcomes (sh nb).
Proof.
  unfold basin_loop. revert nb.
  induction names as [|name names IH]; intros nb; simpl.
  - now rewrite app_nil_r.
  - destruct (basin_inner_trace od res name samples nb) as (Hd & Hi & Ho).
    simpl in Hd, Hi, Ho.
    destruct (IH (fold_left (basin_step dict2str od res name) samples nb))
      as (Hi' & Ho').
    simpl in Hi', Ho'.
    split.
    + rewrite Hi', Hi, Hd. now rewrite map_app, <- app_assoc.
    + now rewrite Ho'.
Qed.

End RunCellProps.

(** The Greenland notebook's loop with every invocation failing: both
    commands are still handed over, and the last status is all that is
    kept. *)
Example greenland_loop_failing_runs :
  let nb :=
    greenland_loop d2s Greenland.output_dir Greenland.resolution
      Greenland.start Greenland.end_ Greenland.iterations
      {| run_dict := Greenland.run_dict0; cmd_var := EmptyString;
         sh := fresh_shell (fun _ => 1) |} in
  List.length (issued (sh nb)) = 2%nat
  /\ exit_code (sh nb) = Some 1
  /\ dict_get "output.extra.file" (run_dict nb)
     = Some (VPath "test_run/spatial_g4500m_rcp_85_2015-01-01_2100-01-01.nc")
  /\ dict_get "surface.ismip6.file" (run_dict nb)
     = Some (VStr "tutorial_files/MARv3.9_MIROC5-rcp85_climate_1960-2100_v1.nc").
Proof. vm_compute. repeat split. Qed.

(** ** The Greenland run loop: what an iteration stores *)

Lemma greenland_update_unfold (od res st en : string) (rcp : Z)
    (climate_file : string) :
  greenland_update od res st en (rcp, climate_file)
  = [ ("surface.ismip6.file", VStr climate_file);
      ("output.extra.file",
       VPath (greenland_extra_file od res st en rcp)) ].
Proof. reflexivity. Qed.

Lemma greenland_update_sets (od res st en : string) (it : Z * string)
    (d : dict) :
  let d' := dict_update d (greenland_update od res st en it) in
  dict_get "surface.ismip6.file" d' = Some (VStr (snd it))
  /\ dict_get "output.extra.file" d'
     = Some (VPath (greenland_extra_file od res st en (fst it))).
Proof.
  destruct it as [rcp file]. cbv zeta.
  rewrite greenland_update_unfold. unfold dict_update.
  cbn [fold_left fst snd]. split.
  - rewrite dict_get_set_ne by discriminate. apply dict_get_set_eq.
  - apply dict_get_set_eq.
Qed.

Lemma greenland_dicts_map {A : Type} (od res st en : string)
    (f : dict -> A) (g : Z * string -> A) :
  (forall d it, f (dict_update d (greenland_update od res st en it)) = g it) ->
  forall its d0, map f (greenland_dicts od res st en its d0) = map g its.
Proof.
  intros Hstep its.
  induction its as [|it its IH]; intros d0; simpl; [reflexivity|].
  now rewrite Hstep, IH.
Qed.

(** ** Sorted dictionaries, cut at a key *)

Lemma ltb_irrefl (a : string) : String.ltb a a = false.
Proof.
  destruct (String.ltb a a) eqn:E; [|reflexivity].
  apply ltb_iff, String_as_OT.lt_not_eq in E.
  exfalso. apply E. reflexivity.
Qed.

Lemma ltb_trans (a b c : string) :
  String.ltb a b = true -> String.ltb b c = true -> String.ltb a c = true.
Proof. rewrite !ltb_iff. apply String_as_OT.lt_trans. Qed.

Lemma ltb_asym (a b : string) :
  String.ltb a b = true -> String.ltb b a = false.
Proof.
  intros H. destruct (String.ltb b a) eqn:E; [|reflexivity].
  rewrite <- (ltb_irrefl a). symmetry. now apply ltb_trans with b.
Qed.

Lemma ltb_total (a b : string) :
  a <> b -> String.ltb a b = false -> String.ltb b a = true.
Proof.
  intros Hne H.
  destruct (String_as_OT.compare a b) as [Hlt|Heq|Hgt].
  - apply ltb_iff in Hlt. congruence.
  - contradiction.
  - now apply ltb_iff.
Qed.

Lemma ltb_neq (a b : string) : String.ltb a b = true -> a <> b.
Proof. intros H ->. rewrite ltb_irrefl in H. discriminate. Qed.

Lemma entries_all_after (k : string) (l : dict) :
  Forall (fun kv => String.ltb k (fst kv) = true) l ->
  entries_before k l = [] /\ entries_after k l = l /\ dict_get k l = None.
Proof.
  unfold entries_before, entries_after.
  induction 1 as [|[k' v'] l Hk Hall (IH1 & IH2 & IH3)]; [now split|].
  cbn [filter fst dict_get]. simpl in Hk.
  rewrite (ltb_asym _ _ Hk), Hk, IH1, IH2, IH3.
  destruct (String.eqb_spec k k') as [->|_]; [|now split].
  rewrite ltb_irrefl in Hk. discriminate.
Qed.

Lemma sorted_head_before (kv : string * value) (l : dict) :
  StronglySorted key_le (kv :: l) -> wf_dict (kv :: l) ->
  Forall (fun x => String.ltb (fst kv) (fst x) = true) l.
Proof.
  intros Hs Hwf.
  inversion Hs as [|? ? _ Hall]; subst.
  inversion Hwf as [|? ? Hnotin _]; subst.
  rewrite Forall_forall in *. intros x Hx.
  apply leb_neq_ltb; [now apply Hall|].
  intros E. apply Hnotin. rewrite E. now apply in_map.
Qed.

(** A dictionary in ascending key order is its entries before [k], the
    entry of [k] if there is one, and its entries after [k]. *)
Lemma sorted_cut (k : string) (l : dict) :
  StronglySorted key_le l -> wf_dict l ->
  l = (entries_before k l
       ++ match dict_get k l with Some v => [(k, v)] | None => [] end
       ++ entries_after k l)%list.
Proof.
  induction l as [|[k' v'] l IH]; intros Hs Hwf; [reflexivity|].
  pose proof (sorted_head_before _ _ Hs Hwf) as Hall. simpl in Hall.
  assert (StronglySorted key_le l) as Hs' by now inversion Hs.
  assert (wf_dict l) as Hwf' by now inversion Hwf.
  unfold entries_before, entries_after in *.
  cbn [filter fst dict_get].
  destruct (String.eqb_spec k k') as [->|Hne].
  - destruct (entries_all_after k' l Hall) as (E1 & E2 & _).
    unfold entries_before, entries_after in E1, E2.
    now rewrite ltb_irrefl, E1, E2.
  - destruct (String.ltb k' k) eqn:E.
    + rewrite (ltb_asym _ _ E). cbn [app]. f_equal. now apply IH.
    + assert (String.ltb k k' = true) as Hlt
          by (apply ltb_total; [congruence | exact E]).
      rewrite Hlt.
      assert (Forall (fun kv => String.ltb k (fst kv) = true) l) as Hall'.
      { rewrite Forall_forall in *. intros x Hx.
        apply ltb_trans with k'; [exact Hlt | now apply Hall]. }
      destruct (entries_all_after k l Hall') as (E1 & E2 & E3).
      unfold entries_before, entries_after in E1, E2.
      now rewrite E1, E2, E3.
Qed.

(** Sorted dictionaries that agree on the keys selected by [p] have the
    same entries under these keys. *)
Lemma filter_keys_sorted_eq (p : string -> bool) (l1 l2 : dict) :
  StronglySorted key_le l1 -> StronglySorted key_le l2 ->
  wf_dict l1 -> wf_dict l2 ->
  (forall k, p k = true -> dict_get k l1 = dict_get k l2) ->
  filter (fun kv => p (fst kv)) l1 = filter (fun kv => p (fst kv)) l2.
Proof.
  intros Hs1 Hs2 Hwf1 Hwf2 Hagree.
  apply sorted_by_key_unique.
  - now apply StronglySorted_filter.
  - now apply StronglySorted_filter.
  - now apply wf_dict_filter.
  - apply same_mapping_perm; [now apply wf_dict_filter..|].
    intros k. rewrite !(dict_get_filter_keys p).
    destruct (p k) eqn:E; [now apply Hagree | reflexivity].
Qed.

Lemma sorted_entries_after (k : string) (l : dict) :
  StronglySorted key_le l -> wf_dict l ->
  StronglySorted key_le (entries_after k l) /\ wf_dict (entries_after k l).
Proof.
  intros Hs Hwf. split.
  - now apply StronglySorted_filter.
  - now apply wf_dict_filter.
Qed.

Lemma dict_get_entries_after (k k' : string) (l : dict) :
  dict_get k' (entries_after k l)
  = if String.ltb k k' then dict_get k' l else None.
Proof. exact (dict_get_filter_keys (fun x => String.ltb k x) k' l). Qed.

Lemma sorted_other_entries (d : dict) :
  wf_dict d ->
  StronglySorted key_le (other_entries (sort_dict_by_key d))
  /\ wf_dict (other_entries (sort_dict_by_key d)).
Proof.
  intros Hwf. split.
  - apply StronglySorted_filter, sort_dict_by_key_sorted.
  - now apply wf_dict_filter, wf_sort_dict_by_key.
Qed.

Lemma dict_get_other_entries (k : string) (d : dict) :
  dict_get k (other_entries d)
  = if greenland_loop_key k then None else dict_get k d.
Proof.
  unfold other_entries.
  rewrite (dict_get_filter_keys (fun k => negb (greenland_loop_key k))).
  now destruct (greenland_loop_key k).
Qed.

Lemma before_extra_other (k : string) :
  String.ltb k "output.extra.file" = true -> greenland_loop_key k = false.
Proof.
  intros H. unfold greenland_loop_key. apply orb_false_iff.
  split; apply String.eqb_neq; intros ->; vm_compute in H; discriminate.
Qed.

Lemma after_climate_other (k : string) :
  String.ltb "surface.ismip6.file" k = true -> greenland_loop_key k = false.
Proof.
  intros H. unfold greenland_loop_key. apply orb_false_iff.
  split; apply String.eqb_neq; intros ->; vm_compute in H; discriminate.
Qed.

Lemma between_other (k : string) :
  String.ltb "output.extra.file" k = true ->
  String.ltb k "surface.ismip6.file" = true ->
  greenland_loop_key k = false.
Proof.
  intros H1 H2. unfold greenland_loop_key. apply orb_false_iff.
  split; apply String.eqb_neq; intros ->;
    [vm_compute in H2 | vm_compute in H1]; discriminate.
Qed.

(** The key-sorted dictionary of an iteration of the Greenland loop: the
    key-sorted entries that [run_dict] had under the other keys before the
    loop, with the two entries of the iteration at their places. *)
Lemma greenland_sorted_cut (d d0 : dict) (extra climate : value) :
  wf_dict d -> wf_dict d0 ->
  (forall k, greenland_loop_key k = false -> dict_get k d = dict_get k d0) ->
  dict_get "output.extra.file" d = Some extra ->
  dict_get "surface.ismip6.file" d = Some climate ->
  let others := other_entries (sort_dict_by_key d0) in
  let a := entries_before "output.extra.file" others in
  let m := entries_before "surface.ismip6.file"
             (entries_after "output.extra.file" others) in
  let z := entries_after "surface.ismip6.file" others in
  others = (a ++ m ++ z)%list
  /\ sort_dict_by_key d
     = (a ++ ("output.extra.file", extra)
          :: m ++ ("surface.ismip6.file", climate) :: z)%list.
Proof.
  intros Hwf Hwf0 Hframe Hextra Hclimate others a m z.
  destruct (sorted_other_entries d0 Hwf0) as [Hso Hwo]. fold others in Hso, Hwo.
  pose proof (sort_dict_by_key_sorted d) as Hs.
  pose proof (wf_sort_dict_by_key d Hwf) as Hws.
  set (S := sort_dict_by_key d) in *.
  assert (forall k, greenland_loop_key k = false ->
            dict_get k S = dict_get k others) as Hagree.
  { intros k Hk. unfold others. rewrite dict_get_other_entries, Hk.
    unfold S. rewrite !sort_dict_by_key_get by assumption. now apply Hframe. }
  assert (String.ltb "output.extra.file" "surface.ismip6.file" = true)
    as Horder by reflexivity.
  destruct (sorted_entries_after "output.extra.file" S Hs Hws) as [Hst Hwt].
  destruct (sorted_entries_after "output.extra.file" others Hso Hwo)
    as [Hsu Hwu].
  assert (entries_after "surface.ismip6.file"
            (entries_after "output.extra.file" others) = z) as Hz.
  { apply (filter_keys_sorted_eq (fun x => String.ltb "surface.ismip6.file" x));
      try assumption.
    intros k Hk. rewrite dict_get_entries_after.
    now rewrite (ltb_trans _ _ _ Horder Hk). }
  assert (dict_get "output.extra.file" others = None) as Hoe
      by (unfold others; now rewrite dict_get_other_entries).
  assert (dict_get "surface.ismip6.file" others = None) as Hoc
      by (unfold others; now rewrite dict_get_other_entries).
  split.
  - rewrite (sorted_cut "output.extra.file" others Hso Hwo) at 1.
    rewrite Hoe. cbn [app]. fold a. f_equal.
    rewrite (sorted_cut "surface.ismip6.file"
               (entries_after "output.extra.file" others) Hsu Hwu) at 1.
    rewrite dict_get_entries_after, Horder, Hoc.
    cbn [app]. fold m. now rewrite Hz.
  - rewrite (sorted_cut "output.extra.file" S Hs Hws) at 1.
    replace (dict_get "output.extra.file" S) with (Some extra)
      by (unfold S; now rewrite sort_dict_by_key_get).
    cbn [app]. f_equal.
    + apply (filter_keys_sorted_eq (fun x => String.ltb x "output.extra.file"));
        try assumption.
      intros k Hk. now apply Hagree, before_extra_other.
    + f_equal.
      rewrite (sorted_cut "surface.ismip6.file"
                 (entries_after "output.extra.file" S) Hst Hwt) at 1.
      rewrite dict_get_entries_after, Horder.
      replace (dict_get "surface.ismip6.file" S) with (Some climate)
        by (unfold S; now rewrite sort_dict_by_key_get).
      cbn [app]. f_equal.
      * apply (filter_keys_sorted_eq
                 (fun x => String.ltb x "surface.ismip6.file"));
          try assumption.
        intros k Hk. rewrite !dict_get_entries_after.
        destruct (String.ltb "output.extra.file" k) eqn:E; [|reflexivity].
        now apply Hagree, between_other.
      * f_equal. rewrite <- Hz.
        apply (filter_keys_sorted_eq
                 (fun x => String.ltb "surface.ismip6.file" x));
          try assumption.
        intros k Hk. rewrite !dict_get_entries_after.
        rewrite (ltb_trans _ _ _ Horder Hk).
        now apply Hagree, after_climate_other.
Qed.

(** ** [dict2str] as the specification has it *)

Lemma flag_tokens_app (skip : value -> bool) (d1 d2 : dict) :
  flag_tokens skip (d1 ++ d2)%list
  = (flag_tokens skip d1 ++ flag_tokens skip d2)%list.
Proof. unfold flag_tokens. now rewrite filter_app, map_app. Qed.

Lemma flag_tokens_cons (skip : value -> bool) (kv : string * value)
    (d : dict) :
  flag_tokens skip (kv :: d)
  = (flag_tokens skip [kv] ++ flag_tokens skip d)%list.
Proof. exact (flag_tokens_app skip [kv] d). Qed.

(** The renderer the climate-forcing notebook defines is the one of the
    specification that skips nothing. *)
Example d2s_skips_nothing (d : dict) :
  d2s d = dict2str_spec (fun _ => false) d.
Proof.
  unfold d2s, dict2str_spec, flag_tokens. do 2 f_equal.
  symmetry. now apply filter_all_true, forallb_forall.
Qed.

Section RunCellTheorems.

Variable dict2str : dict -> string.

(** C5: two dictionaries that are the same mapping, whatever the order
    their keys were inserted in, are rendered to the same string once
    sorted by key; the sorted dictionary is still the same mapping and its
    keys are in strictly ascending order. *)
Theorem sorted_rendering_reproducible (d1 d2 : dict) :
  wf_dict d1 -> wf_dict d2 -> same_mapping d1 d2 ->
  dict2str (sort_dict_by_key d1) = dict2str (sort_dict_by_key d2)
  /\ same_mapping (sort_dict_by_key d1) d1
  /\ StronglySorted (fun a b => String.ltb a b = true)
                    (dict_keys (sort_dict_by_key d1)).
Proof.
  intros H1 H2 Hsame. split; [|split].
  - f_equal. now apply sort_dict_by_key_same_mapping.
  - now apply sort_dict_by_key_get.
  - now apply sort_dict_by_key_ascending.
Qed.


(** C7: whatever exit statuses the shell invocations have, both run loops
    hand over the same commands, exactly one per iteration and in order,
    and leave the same [run_dict]; the status only ends up in the shell's
    [exit_code], which no cell reads. *)
Theorem run_loops_ignore_outcomes (o1 o2 : nat -> Z) (d0 : dict) (c0 : string) :
  let nb o := {| run_dict := d0; cmd_var := c0; sh := fresh_shell o |} in
  (forall (od res st en : string) (its : list (Z * string)),
      let nb1 := greenland_loop dict2str od res st en its (nb o1) in
      let nb2 := greenland_loop dict2str od res st en its (nb o2) in
      issued (sh nb1) = issued (sh nb2)
      /\ List.length (issued (sh nb1)) = List.length its
      /\ run_dict nb1 = run_dict nb2)
  /\ (forall (od res : string) (names : list string)
             (samples : list (Z * dict)),
         let nb1 := basin_loop dict2str od res names samples (nb o1) in
         let nb2 := basin_loop dict2str od res names samples (nb o2) in
         issued (sh nb1) = issued (sh nb2)
         /\ List.length (issued (sh nb1))
            = (List.length names * List.length samples)%nat).
Proof.
  intros nb. split.
  - intros od res st en its nb1 nb2.
    destruct (greenland_loop_trace dict2str od res st en its (nb o1))
      as (Hd1 & Hi1 & _).
    destruct (greenland_loop_trace dict2str od res st en its (nb o2))
      as (Hd2 & Hi2 & _).
    simpl in Hd1, Hd2, Hi1, Hi2.
    unfold nb1, nb2. rewrite Hi1, Hi2, Hd1, Hd2.
    split; [reflexivity|]. split; [|reflexivity].
    now rewrite length_map, length_greenland_dicts.
  - intros od res names samples nb1 nb2.
    destruct (basin_loop_trace dict2str od res names samples (nb o1))
      as (Hi1 & _).
    destruct (basin_loop_trace dict2str od res names samples (nb o2))
      as (Hi2 & _).
    simpl in Hi1, Hi2.
    unfold nb1, nb2. rewrite Hi1, Hi2.
    split; [reflexivity|].
    now rewrite length_map, length_basin_loop_dicts.
Qed.

(** C9: in the Greenland loop, the dictionary [d] of the iteration for
    [rcp] and [climate_file] binds every key other than
    [surface.ismip6.file] and [output.extra.file] as [run_dict] did before
    the loop.  Sorted by key, [d] is the key-sorted entries that
    [run_dict] had under the other keys before the loop, all of them and
    in their order, with the entries of the iteration under the two keys
    put at their places; the iteration hands the shell the command built
    from [d].  With [dict2str] as the specification has it, whatever
    values it skips, that command is the same sequence of tokens for the
    other keys in every iteration, with the tokens of the two entries in
    between. *)
Theorem greenland_update_frame (od res st en : string)
    (its : list (Z * string)) (d0 : dict) (i : nat) (d : dict)
    (rcp : Z) (climate_file : string) :
  wf_dict d0 ->
  nth_error its i = Some (rcp, climate_file) ->
  nth_error (greenland_dicts od res st en its d0) i = Some d ->
  let others := other_entries (sort_dict_by_key d0) in
  let a := entries_before "output.extra.file" others in
  let m := entries_before "surface.ismip6.file"
             (entries_after "output.extra.file" others) in
  let z := entries_after "surface.ismip6.file" others in
  let extra :=
    ("output.extra.file", VPath (greenland_extra_file od res st en rcp)) in
  let climate := ("surface.ismip6.file", VStr climate_file) in
  (forall k : string,
      greenland_loop_key k = false -> dict_get k d = dict_get k d0)
  /\ others = (a ++ m ++ z)%list
  /\ sort_dict_by_key d = (a ++ extra :: m ++ climate :: z)%list
  /\ (forall (o : nat -> Z) (c0 : string),
         nth_error
           (issued (sh (greenland_loop dict2str od res st en its
                          {| run_dict := d0; cmd_var := c0;
                             sh := fresh_shell o |})))
           i
         = Some (" " ++ cmd dict2str 8 d))
  /\ (forall (skip : value -> bool) (o : nat -> Z) (c0 : string),
         nth_error
           (issued (sh (greenland_loop (dict2str_spec skip) od res st en its
                          {| run_dict := d0; cmd_var := c0;
                             sh := fresh_shell o |})))
           i
         = Some (" mpirun -np 8 pism "
                 ++ str_join " "
                      (flag_tokens skip a ++ flag_tokens skip [extra]
                       ++ flag_tokens skip m ++ flag_tokens skip [climate]
                       ++ flag_tokens skip z)%list)).
Proof.
  intros Hwf Hit Hnth others a m z extra climate.
  pose proof (greenland_dicts_frame od res st en its d0 Hwf) as Hall.
  rewrite Forall_forall in Hall.
  destruct (Hall d (nth_error_In _ _ Hnth)) as [Hwfd Hother].
  assert (dict_get "output.extra.file" d = Some (snd extra)) as Hextra.
  { pose proof (map_nth_error (dict_get "output.extra.file") _ _ Hnth) as H.
    rewrite (greenland_dicts_map od res st en
               (dict_get "output.extra.file")
               (fun it =>
                  Some (VPath (greenland_extra_file od res st en (fst it)))))
      in H
      by (intros d' it; apply (proj2 (greenland_update_sets od res st en it d'))).
    rewrite (map_nth_error _ _ _ Hit) in H. now injection H as <-. }
  assert (dict_get "surface.ismip6.file" d = Some (snd climate)) as Hclimate.
  { pose proof (map_nth_error (dict_get "surface.ismip6.file") _ _ Hnth) as H.
    rewrite (greenland_dicts_map od res st en
               (dict_get "surface.ismip6.file")
               (fun it => Some (VStr (snd it))))
      in H
      by (intros d' it; apply (proj1 (greenland_update_sets od res st en it d'))).
    rewrite (map_nth_error _ _ _ Hit) in H. now injection H as <-. }
  destruct (greenland_sorted_cut d d0 _ _ Hwfd Hwf Hother Hextra Hclimate)
    as [Hothers Hsorted].
  fold others a m z in Hothers, Hsorted.
  split; [exact Hother|]. split; [exact Hothers|].
  split; [exact Hsorted|]. split.
  - intros o c0.
    destruct (greenland_loop_trace dict2str od res st en its
                {| run_dict := d0; cmd_var := c0; sh := fresh_shell o |})
      as (_ & Hi & _).
    simpl in Hi. rewrite Hi.
    exact (map_nth_error (fun d => " " ++ cmd dict2str 8 d) _ _ Hnth).
  - intros skip o c0.
    destruct (greenland_loop_trace (dict2str_spec skip) od res st en its
                {| run_dict := d0; cmd_var := c0; sh := fresh_shell o |})
      as (_ & Hi & _).
    simpl in Hi. rewrite Hi.
    transitivity (Some (" " ++ cmd (dict2str_spec skip) 8 d));
      [exact (map_nth_error
                (fun d => " " ++ cmd (dict2str_spec skip) 8 d) _ _ Hnth)|].
    f_equal. unfold cmd, dict2str_spec. rewrite Hsorted.
    rewrite flag_tokens_app, (flag_tokens_cons skip extra).
    rewrite flag_tokens_app, (flag_tokens_cons skip climate).
    reflexivity.
Qed.

End RunCellTheorems.

(** Two insertion orders of one mapping, rendered by [d2s] after sorting. *)
Lemma sorted_rendering_reproducible_witness :
  d2s (sort_dict_by_key [("grid.dy", VStr "2km"); ("grid.dx", VStr "1km")])
  = d2s (sort_dict_by_key [("grid.dx", VStr "1km"); ("grid.dy", VStr "2km")]).
Proof.
  refine (proj1 (sorted_rendering_reproducible d2s
            [("grid.dy", VStr "2km"); ("grid.dx", VStr "1km")]
            [("grid.dx", VStr "1km"); ("grid.dy", VStr "2km")] _ _ _)).
  - wf_literal.
  - wf_literal.
  - intros k. simpl.
    destruct (String.eqb_spec k "grid.dy") as [->|_]; [reflexivity|].
    now destruct (String.eqb_spec k "grid.dx").
Defined.


(** The second iteration of the Greenland notebook's loop, for a
    [dict2str] that skips nothing. *)
Lemma greenland_update_frame_witness :
  let others := other_entries (sort_dict_by_key Greenland.run_dict0) in
  let nb0 := {| run_dict := Greenland.run_dict0; cmd_var := EmptyString;
                sh := fresh_shell (fun _ => 0) |} in
  nth_error
    (issued (sh (greenland_loop (dict2str_spec (fun _ => false))
                   Greenland.output_dir Greenland.resolution
                   Greenland.start Greenland.end_ Greenland.iterations nb0)))
    1
  = Some (" mpirun -np 8 pism "
          ++ str_join " "
               (flag_tokens (fun _ => false)
                  (entries_before "output.extra.file" others)
                ++ ["-output.extra.file test_run/spatial_g4500m_rcp_85_2015-01-01_2100-01-01.nc"]
                ++ flag_tokens (fun _ => false)
                     (entries_before "surface.ismip6.file"
                        (entries_after "output.extra.file" others))
                ++ ["-surface.ismip6.file tutorial_files/MARv3.9_MIROC5-rcp85_climate_1960-2100_v1.nc"]
                ++ flag_tokens (fun _ => false)
                     (entries_after "surface.ismip6.file" others))%list).
Proof.
  refine (proj2 (proj2 (proj2 (proj2
    (greenland_update_frame d2s Greenland.output_dir Greenland.resolution
       Greenland.start Greenland.end_ Greenland.iterations
       Greenland.run_dict0 1%nat _ 85
       "tutorial_files/MARv3.9_MIROC5-rcp85_climate_1960-2100_v1.nc"
       (wf_merge_dicts _) _ _))))
    (fun _ => false) (fun _ => 0) EmptyString).
  - reflexivity.
  - vm_compute. reflexivity.
Defined.


(** ** The MISMIP+ bed *)

(** C10: over the reals, [Bx] is even in [x], for the default parameters
    and for any others, and [By] takes the same value at equal distances
    on both sides of the centerline [Ly / 2]. *)
Theorem bed_shape_symmetric :
  (forall x : R, Mismip.Bx_default (- x) = Mismip.Bx_default x)
  /\ (forall x B0 B2 B4 B6 x_bar : R,
         Mismip.Bx (- x) B0 B2 B4 B6 x_bar = Mismip.Bx x B0 B2 B4 B6 x_bar)
  /\ (forall t : R,
         Mismip.By_default (Mismip.Ly / 2 + t)
         = Mismip.By_default (Mismip.Ly / 2 - t))%R
  /\ (forall t Ly dc fc wc : R,
         Mismip.By (Ly / 2 + t) Ly dc fc wc
         = Mismip.By (Ly / 2 - t) Ly dc fc wc)%R.
Proof.
  assert (forall x B0 B2 B4 B6 x_bar : R,
             Mismip.Bx (- x) B0 B2 B4 B6 x_bar
             = Mismip.Bx x B0 B2 B4 B6 x_bar) as HBx.
  { intros. unfold Mismip.Bx, Rdiv. ring. }
  assert (forall t Ly dc fc wc : R,
             Mismip.By (Ly / 2 + t) Ly dc fc wc
             = Mismip.By (Ly / 2 - t) Ly dc fc wc)%R as HBy.
  { intros. unfold Mismip.By.
    replace (-2 * (Ly / 2 + t - Ly / 2 - wc) / fc)%R
      with (2 * (Ly / 2 - t - Ly / 2 + wc) / fc)%R by (unfold Rdiv; ring).
    replace (2 * (Ly / 2 + t - Ly / 2 + wc) / fc)%R
      with (-2 * (Ly / 2 - t - Ly / 2 - wc) / fc)%R by (unfold Rdiv; ring).
    apply Rplus_comm. }
  split; [intros x; apply HBx|].
  split; [exact HBx|].
  split; [intros t; apply HBy | exact HBy].
Qed.

(* ================================================================= *)
(** * Part III: further properties of the notebooks' code *)
(* ================================================================= *)

(** ** Strings *)

Lemma str_length_app (s t : string) :
  String.length (s ++ t) = (String.length s + String.length t)%nat.
Proof. induction s as [|c s IH]; simpl; [reflexivity | now rewrite IH]. Qed.

Lemma str_app_inj_l (s t t' : string) : s ++ t = s ++ t' -> t = t'.
Proof.
  induction s as [|c s IH]; simpl; [tauto|]. intros [= H]. now apply IH.
Qed.

Lemma str_app_inj_r (s s' t : string) : s ++ t = s' ++ t -> s = s'.
Proof.
  revert s'. induction s as [|c s IH]; intros [|c' s'] H; simpl in H.
  - reflexivity.
  - apply (f_equal String.length) in H. simpl in H.
    rewrite str_length_app in H. lia.
  - apply (f_equal String.length) in H. simpl in H.
    rewrite str_length_app in H. lia.
  - injection H as -> H. f_equal. now apply IH.
Qed.

Lemma to_int_not_nil (z : Z) :
  Z.to_int z <> Decimal.Pos Decimal.Nil
  /\ Z.to_int z <> Decimal.Neg Decimal.Nil.
Proof.
  destruct z; simpl; split; try discriminate.
  - intros [= H]. now apply (DecimalPos.Unsigned.to_uint_nonnil p).
  - intros [= H]. now apply (DecimalPos.Unsigned.to_uint_nonnil p).
Qed.

(** Different integers print differently. *)
Lemma str_of_int_inj (z1 z2 : Z) : str_of_int z1 = str_of_int z2 -> z1 = z2.
Proof.
  unfold str_of_int. intros H.
  apply (f_equal NilZero.int_of_string) in H.
  destruct (to_int_not_nil z1) as [A1 B1], (to_int_not_nil z2) as [A2 B2].
  rewrite !NilZero.isi in H by assumption.
  injection H as H. apply (f_equal Z.of_int) in H.
  now rewrite !DecimalZ.of_to in H.
Qed.

Lemma str_init_app_char (s : string) (c : ascii) :
  str_init (s ++ String c EmptyString) = s.
Proof.
  induction s as [|a s IH]; [reflexivity|].
  simpl. rewrite IH.
  now destruct s.
Qed.

Example str_init_resolution : str_init "3600m" = "3600".
Proof. reflexivity. Qed.

(** ** Paths *)

Example path_join_plain_dir :
  path_join "test_run" "spatial_g4500m.nc" = "test_run/spatial_g4500m.nc".
Proof. reflexivity. Qed.

Example path_join_drops_empty_and_dot :
  path_join "a/./b/" "c//d" = "a/b/c/d".
Proof. reflexivity. Qed.

Example path_join_no_dir : path_join "." "x.nc" = "x.nc".
Proof. reflexivity. Qed.

Example path_join_rooted_key : path_join "a" "/x" = "/x".
Proof. reflexivity. Qed.

Example path_join_two_slashes : path_join "//" "x" = "//x".
Proof. reflexivity. Qed.

Example path_join_nothing : path_join EmptyString EmptyString = ".".
Proof. reflexivity. Qed.

(** Splitting a concatenation: the last piece of the left part and the
    first piece of the right part are one piece. *)
Lemma str_split_app (sep : ascii) (s : string) :
  exists (init : list string) (l : string),
    str_split sep s = (init ++ [l])%list
    /\ forall (t w : string) (ws : list string),
         str_split sep t = w :: ws ->
         str_split sep (s ++ t) = (init ++ (l ++ w)%string :: ws)%list.
Proof.
  induction s as [|a s (init & l & Hs & Happ)].
  - exists [], EmptyString. split; [reflexivity|].
    intros t w ws Ht. exact Ht.
  - cbn [str_split append]. destruct (Ascii.eqb a sep).
    + exists (EmptyString :: init), l. split; [now rewrite Hs|].
      intros t w ws Ht. now rewrite (Happ t w ws Ht).
    + destruct init as [|i init].
      * exists [], (String a l). split; [now rewrite Hs|].
        intros t w ws Ht. now rewrite (Happ t w ws Ht).
      * exists (String a i :: init), l. split; [now rewrite Hs|].
        intros t w ws Ht. now rewrite (Happ t w ws Ht).
Qed.

Lemma str_split_cons (sep : ascii) (s : string) :
  exists w ws, str_split sep s = w :: ws.
Proof.
  destruct (str_split_app sep s) as (init & l & Hs & _).
  rewrite Hs. destruct init as [|i init]; simpl; eauto.
Qed.

Lemma str_split_plain (s : string) :
  no_slash s = true -> str_split "/" s = [s].
Proof.
  induction s as [|a s IH]; simpl; [reflexivity|].
  intros H. apply andb_prop in H. destruct H as [Ha Hs].
  apply negb_true_iff in Ha. rewrite Ha, IH by assumption. reflexivity.
Qed.

Lemma str_split_plain_app (d t w : string) (ws : list string) :
  no_slash d = true -> str_split "/" t = w :: ws ->
  str_split "/" (d ++ t) = (d ++ w) :: ws.
Proof.
  intros Hd Ht.
  destruct (str_split_app "/" d) as (init & l & Hs & Happ).
  rewrite (str_split_plain d Hd) in Hs.
  destruct init as [|i [|i' init]]; try discriminate.
  injection Hs as <-. exact (Happ t w ws Ht).
Qed.

Lemma no_slash_app (s t : string) :
  no_slash (s ++ t) = no_slash s && no_slash t.
Proof.
  induction s as [|a s IH]; simpl; [reflexivity|].
  now rewrite IH, andb_assoc.
Qed.

Lemma kept_part_underscore (l x : string) :
  kept_part (l ++ String "_" x) = true.
Proof.
  unfold kept_part. apply andb_true_intro. split; apply negb_true_iff;
    apply String.eqb_neq.
  - destruct l; discriminate.
  - destruct l as [|c [|c' l]]; discriminate.
Qed.

Lemma path_str_mid (r : string) (l1 l2 : list string) (c : string) :
  path_str {| path_root := r; path_parts := (l1 ++ c :: l2)%list |}
  = (r ++ join_before l1) ++ c ++ join_after l2.
Proof.
  unfold path_str. cbn [path_parts path_root].
  destruct (l1 ++ c :: l2)%list as [|x xs] eqn:E;
    [now destruct l1|]. rewrite <- E. clear E x xs.
  rewrite str_join_app, str_app_assoc. f_equal.
  destruct l1 as [|x l1]; cbn [join_before].
  - rewrite str_join_cons. now destruct l2.
  - rewrite str_join_cons with (x := c).
    rewrite !str_app_assoc. now destruct l2.
Qed.

Lemma starts_with_slash_app (s : string) (c : ascii) (t : string) :
  starts_with_slash s = false -> c <> "/"%char ->
  starts_with_slash (s ++ String c t) = false.
Proof.
  intros Hs Hc. destruct s as [|a s]; [|exact Hs].
  simpl. now apply Ascii.eqb_neq.
Qed.

(** Text appended to a name that ends in an underscore is appended to the
    path, slashes of the text apart. *)
Lemma path_join_app (od s t : string) :
  starts_with_slash s = false ->
  path_join od (s ++ String "_" t)
  = path_join od (s ++ "_") ++ path_tail t.
Proof.
  intros Ha. unfold path_join, path_div.
  rewrite !starts_with_slash_app by (assumption || discriminate).
  cbn [Path path_parts path_root].
  destruct (str_split_app "/" s) as (init & l & Hs & Happ).
  destruct (str_split_cons "/" t) as (w & ws & Ht).
  assert (str_split "/" (String "_" t) = String "_" w :: ws) as Ht'
      by (cbn [str_split]; now rewrite Ht).
  rewrite (Happ (String "_" t) _ _ Ht').
  rewrite (Happ "_" "_" [] eq_refl).
  rewrite !filter_app. cbn [filter].
  rewrite !kept_part_underscore.
  rewrite !app_assoc.
  rewrite !path_str_mid. cbn [join_after].
  unfold path_tail. rewrite Ht.
  rewrite !str_app_assoc. reflexivity.
Qed.

Lemma path_tail_plain (d t : string) :
  no_slash d = true -> path_tail (d ++ t) = d ++ path_tail t.
Proof.
  intros Hd. unfold path_tail.
  destruct (str_split_cons "/" t) as (w & ws & Ht).
  rewrite (str_split_plain_app d t w ws Hd Ht), Ht.
  now rewrite str_app_assoc.
Qed.

Lemma path_tail_nil : path_tail EmptyString = EmptyString.
Proof. reflexivity. Qed.

Lemma path_join_plain (od name : string) :
  no_slash name = true -> kept_part name = true ->
  path_join od name = path_prefix od ++ name.
Proof.
  intros Hn Hk. unfold path_join, path_div.
  assert (starts_with_slash name = false) as ->.
  { destruct name as [|c name]; [reflexivity|]. simpl in Hn |- *.
    apply andb_prop in Hn. destruct Hn as [Hn _].
    now apply negb_true_iff in Hn. }
  cbn [Path path_parts path_root].
  rewrite (str_split_plain name Hn). cbn [filter]. rewrite Hk.
  rewrite path_str_mid. cbn [join_after]. unfold path_prefix.
  cbn [Path path_parts path_root]. now rewrite str_app_nil_r.
Qed.

Lemma no_slash_uint (d : Decimal.uint) :
  no_slash (NilEmpty.string_of_uint d) = true.
Proof. induction d; simpl; auto. Qed.

Lemma no_slash_str_of_int (z : Z) : no_slash (str_of_int z) = true.
Proof.
  unfold str_of_int, NilZero.string_of_int.
  destruct (Z.to_int z) as [d|d]; unfold NilZero.string_of_uint;
    destruct d; simpl; auto using no_slash_uint.
Qed.

Lemma path_tail_plain_end (d : string) :
  no_slash d = true -> path_tail d = d.
Proof.
  intros Hd. rewrite <- (str_app_nil_r d) at 1.
  rewrite path_tail_plain by assumption. apply str_app_nil_r.
Qed.

(** The path of a name [s_t], cut after the underscore. *)
Lemma path_join_cut (od s t name : string) :
  starts_with_slash s = false ->
  name = s ++ String "_" t ->
  path_join od name = path_join od (s ++ "_") ++ path_tail t.
Proof. intros Hs ->. now apply path_join_app. Qed.

Lemma greenland_extra_file_cut (od res st en : string) (rcp : Z) :
  greenland_extra_file od res st en rcp
  = path_join od ("spatial_g" ++ res ++ "_rcp_")
    ++ str_of_int rcp ++ path_tail ("_" ++ st ++ "_" ++ en ++ ".nc").
Proof.
  unfold greenland_extra_file.
  rewrite (path_join_cut od ("spatial_g" ++ res ++ "_rcp")
             (str_of_int rcp ++ "_" ++ st ++ "_" ++ en ++ ".nc"));
    [|reflexivity | now rewrite !str_app_assoc].
  rewrite path_tail_plain by apply no_slash_str_of_int.
  now rewrite !str_app_assoc.
Qed.

Lemma basin_state_file_cut (od res name : string) (s_id : Z) :
  basin_state_file od res name s_id
  = path_join od ("state_g" ++ res ++ "_")
    ++ path_tail ("sector_" ++ name ++ "_id_" ++ str_of_int s_id ++ ".nc").
Proof.
  unfold basin_state_file.
  rewrite (path_join_cut od ("state_g" ++ res)
             ("sector_" ++ name ++ "_id_" ++ str_of_int s_id ++ ".nc"));
    [|reflexivity | now rewrite !str_app_assoc].
  now rewrite !str_app_assoc.
Qed.

Lemma basin_state_file_id_cut (od res name : string) (s_id : Z) :
  basin_state_file od res name s_id
  = path_join od ("state_g" ++ res ++ "_sector_" ++ name ++ "_id_")
    ++ str_of_int s_id ++ ".nc".
Proof.
  unfold basin_state_file.
  rewrite (path_join_cut od ("state_g" ++ res ++ "_sector_" ++ name ++ "_id")
             (str_of_int s_id ++ ".nc"));
    [|reflexivity | now rewrite !str_app_assoc].
  rewrite path_tail_plain_end
    by (rewrite no_slash_app, no_slash_str_of_int; reflexivity).
  now rewrite !str_app_assoc.
Qed.

Lemma basin_spatial_file_cut (od res name : string) (s_id : Z) :
  basin_spatial_file od res name s_id
  = path_join od ("spatial_g" ++ res ++ "_")
    ++ path_tail ("sector_" ++ name ++ "_id_" ++ str_of_int s_id ++ ".nc").
Proof.
  unfold basin_spatial_file.
  rewrite (path_join_cut od ("spatial_g" ++ res)
             ("sector_" ++ name ++ "_id_" ++ str_of_int s_id ++ ".nc"));
    [|reflexivity | now rewrite !str_app_assoc].
  now rewrite !str_app_assoc.
Qed.

Lemma basin_spatial_file_id_cut (od res name : string) (s_id : Z) :
  basin_spatial_file od res name s_id
  = path_join od ("spatial_g" ++ res ++ "_sector_" ++ name ++ "_id_")
    ++ str_of_int s_id ++ ".nc".
Proof.
  unfold basin_spatial_file.
  rewrite (path_join_cut od
             ("spatial_g" ++ res ++ "_sector_" ++ name ++ "_id")
             (str_of_int s_id ++ ".nc"));
    [|reflexivity | now rewrite !str_app_assoc].
  rewrite path_tail_plain_end
    by (rewrite no_slash_app, no_slash_str_of_int; reflexivity).
  now rewrite !str_app_assoc.
Qed.

(** A doubled slash inside the appended text counts as one. *)
Lemma path_tail_double_slash (d t : string) :
  no_slash d = true ->
  path_tail (d ++ "//" ++ t) = path_tail (d ++ "/" ++ t).
Proof.
  intros Hd. unfold path_tail.
  destruct (str_split_cons "/" t) as (w & ws & Ht).
  rewrite (str_split_plain_app d ("//" ++ t) EmptyString
             (EmptyString :: w :: ws) Hd)
    by (cbn [append str_split Ascii.eqb Bool.eqb]; now rewrite Ht).
  rewrite (str_split_plain_app d ("/" ++ t) EmptyString (w :: ws) Hd)
    by (cbn [append str_split Ascii.eqb Bool.eqb]; now rewrite Ht).
  reflexivity.
Qed.

(** ** [dict.update] *)

(** X1: [d.update(other)] never removes a key and never moves one: the
    keys of the result are the keys of [d] in their order, followed by the
    keys of [other] that [d] did not have, each once. *)
Theorem dict_update_keeps_keys (d other : dict) :
  exists extra : list string,
    dict_keys (dict_update d other) = (dict_keys d ++ extra)%list
    /\ NoDup extra
    /\ forall k, In k extra <->
                 In k (dict_keys other) /\ ~ In k (dict_keys d).
Proof.
  unfold dict_update. revert d.
  induction other as [|[k v] other IH]; intros d; simpl.
  - exists []. rewrite app_nil_r. split; [reflexivity|].
    split; [constructor|]. simpl. tauto.
  - destruct (in_dec string_dec k (dict_keys d)) as [HIn|HnIn].
    + destruct (IH (dict_set k v d)) as (extra & Hk & Hnd & Hiff).
      rewrite dict_keys_set_old in Hk, Hiff by assumption.
      exists extra. split; [exact Hk|]. split; [exact Hnd|].
      intros k'. rewrite Hiff. split.
      * intros [H1 H2]. tauto.
      * intros [[<-|H1] H2]; [contradiction | tauto].
    + destruct (IH (dict_set k v d)) as (extra & Hk & Hnd & Hiff).
      rewrite dict_keys_set_new in Hk, Hiff by assumption.
      exists (k :: extra). split; [now rewrite Hk, <- app_assoc|].
      split.
      * constructor; [|exact Hnd].
        intros Hin. apply Hiff in Hin. destruct Hin as [_ Hin].
        apply Hin, in_or_app. right. now left.
      * intros k'. simpl. rewrite Hiff, in_app_iff. simpl. split.
        -- intros [<-|[H1 H2]]; [tauto|]. split; [tauto|].
           intros H3. apply H2. now left.
        -- intros [[<-|H1] H2]; [now left|].
           destruct (string_dec k k') as [->|Hne]; [now left|].
           right. split; [assumption|]. intros [H3|[H3|[]]]; tauto.
Qed.

Lemma dict_set_same (k : string) (v : value) (d : dict) :
  dict_get k d = Some v -> dict_set k v d = d.
Proof.
  induction d as [|[k' v'] d IH]; simpl; [discriminate|].
  destruct (String.eqb_spec k k') as [->|Hne].
  - now intros [= ->].
  - intros H. now rewrite IH.
Qed.

Lemma dict_update_absorb (d other : dict) :
  Forall (fun kv => dict_get (fst kv) d = Some (snd kv)) other ->
  dict_update d other = d.
Proof.
  unfold dict_update.
  induction 1 as [|[k v] other Hkv Hall IH]; simpl; [reflexivity|].
  simpl in Hkv. now rewrite dict_set_same.
Qed.

(** ** The Greenland run loop, continued *)

(** X3: in every iteration of the Greenland loop, [run_dict] binds
    [surface.ismip6.file] to this iteration's climate file and
    [output.extra.file] to this iteration's output file, whatever the keys
    held before; the sequence of climate files of the commands is the
    sequence of the loop. *)
Theorem greenland_loop_sets_files (od res st en : string)
    (its : list (Z * string)) (d0 : dict) :
  let ds := greenland_dicts od res st en its d0 in
  map (dict_get "surface.ismip6.file") ds
  = map (fun it => Some (VStr (snd it))) its
  /\ map (dict_get "output.extra.file") ds
     = map (fun it => Some (VPath (greenland_extra_file od res st en (fst it))))
           its.
Proof.
  cbv zeta. split.
  - apply greenland_dicts_map. intros d it.
    apply (proj1 (greenland_update_sets od res st en it d)).
  - apply greenland_dicts_map. intros d it.
    apply (proj2 (greenland_update_sets od res st en it d)).
Qed.

Lemma greenland_extra_file_inj (od res st en : string) (rcp1 rcp2 : Z) :
  greenland_extra_file od res st en rcp1
  = greenland_extra_file od res st en rcp2 ->
  rcp1 = rcp2.
Proof.
  rewrite !greenland_extra_file_cut. intros H.
  apply str_app_inj_l in H. apply str_app_inj_r in H.
  now apply str_of_int_inj.
Qed.

(** X4: runs of the Greenland loop for pairwise different values of [rcp]
    write to pairwise different output files. *)
Theorem greenland_extra_files_distinct (od res st en : string)
    (its : list (Z * string)) (d0 : dict) :
  NoDup (map fst its) ->
  NoDup (map (dict_get "output.extra.file")
             (greenland_dicts od res st en its d0)).
Proof.
  intros Hnd.
  rewrite (greenland_dicts_map od res st en
             (dict_get "output.extra.file")
             (fun it => Some (VPath (greenland_extra_file od res st en (fst it)))))
    by (intros d it; apply (proj2 (greenland_update_sets od res st en it d))).
  rewrite <- (map_map fst
                (fun rcp => Some (VPath (greenland_extra_file od res st en rcp)))).
  apply Injective_map_NoDup; [|exact Hnd].
  intros rcp1 rcp2 [= H]. now apply greenland_extra_file_inj in H.
Qed.

Lemma greenland_extra_files_distinct_witness :
  NoDup (map (dict_get "output.extra.file")
             (greenland_dicts Greenland.output_dir Greenland.resolution
                Greenland.start Greenland.end_ Greenland.iterations
                Greenland.run_dict0)).
Proof.
  apply greenland_extra_files_distinct.
  repeat constructor; simpl; intuition discriminate.
Defined.

Lemma dict_update_keys_present (d other : dict) :
  incl (dict_keys other) (dict_keys d) ->
  dict_keys (dict_update d other) = dict_keys d.
Proof.
  unfold dict_update. revert d.
  induction other as [|[k v] other IH]; intros d Hincl; simpl; [reflexivity|].
  assert (In k (dict_keys d)) as Hk by (apply Hincl; now left).
  rewrite IH; [now apply dict_keys_set_old|].
  rewrite dict_keys_set_old by assumption.
  intros k' Hk'. apply Hincl. now right.
Qed.

(** X5: when [run_dict] has both keys before the Greenland loop, every
    iteration leaves its keys and their order as they were: no flag is
    added, none is dropped. *)
Theorem greenland_loop_keeps_keys (od res st en : string)
    (its : list (Z * string)) (d0 : dict) :
  In "surface.ismip6.file" (dict_keys d0) ->
  In "output.extra.file" (dict_keys d0) ->
  Forall (fun d => dict_keys d = dict_keys d0)
         (greenland_dicts od res st en its d0).
Proof.
  intros H1 H2.
  assert (forall d, dict_keys d = dict_keys d0 ->
            Forall (fun d' => dict_keys d' = dict_keys d0)
                   (greenland_dicts od res st en its d)) as Hgen.
  { induction its as [|[rcp file] its IH]; intros d Hd; simpl; [constructor|].
    assert (dict_keys (dict_update d
                         (greenland_update od res st en (rcp, file)))
            = dict_keys d0) as Hd'.
    { rewrite dict_update_keys_present; [exact Hd|].
      rewrite Hd. intros k [<-|[<-|[]]]; assumption. }
    constructor; [exact Hd'|]. now apply IH. }
  now apply Hgen.
Qed.

Lemma greenland_loop_keeps_keys_witness :
  Forall (fun d => dict_keys d = dict_keys Greenland.run_dict0)
         (greenland_dicts Greenland.output_dir Greenland.resolution
            Greenland.start Greenland.end_ Greenland.iterations
            Greenland.run_dict0).
Proof.
  apply greenland_loop_keeps_keys; vm_compute; tauto.
Defined.

(** ** The basin run loop, continued *)

Lemma basin_update_unfold (od res name : string) (s_id : Z) :
  basin_update od res name s_id
  = [ ("grid.file", VStr (basin_grid_file name));
      ("output.file", VPath (basin_state_file od res name s_id));
      ("output.extra.file", VPath (basin_spatial_file od res name s_id)) ].
Proof. reflexivity. Qed.

Lemma wf_basin_update (od res name : string) (s_id : Z) :
  wf_dict (basin_update od res name s_id).
Proof. rewrite basin_update_unfold. wf_literal. Qed.

Lemma basin_update_other (od res name : string) (s_id : Z) (k : string) :
  basin_loop_key k = false ->
  dict_get k (basin_update od res name s_id) = None.
Proof.
  unfold basin_loop_key. intros Hk.
  apply orb_false_iff in Hk. destruct Hk as [Hk H3].
  apply orb_false_iff in Hk. destruct Hk as [H1 H2].
  rewrite basin_update_unfold. cbn [dict_get].
  now rewrite H1, H2, H3.
Qed.

(** X2: updating a dictionary with entries it already holds changes
    nothing, not even the order; so an update applied twice is the update
    applied once.  The basin loop stores the sample again for every basin,
    after the file names of the run before: this changes nothing when the
    sample has none of the three file keys, and it replaces the file name
    of the run before when the sample has an entry of its own under
    [output.file]. *)
Theorem dict_update_idempotent (d other : dict) :
  (Forall (fun kv => dict_get (fst kv) d = Some (snd kv)) other ->
   dict_update d other = d)
  /\ (wf_dict other ->
      dict_update (dict_update d other) other = dict_update d other)
  /\ (forall (od res name : string) (s_id : Z),
         let d' :=
           dict_update (dict_update d other)
                       (basin_update od res name s_id) in
         wf_dict other ->
         ((forall k, In k (dict_keys other) -> basin_loop_key k = false) ->
          dict_update d' other = d')
         /\ (forall v,
                dict_get "output.file" other = Some v ->
                v <> VPath (basin_state_file od res name s_id) ->
                dict_update d' other <> d')).
Proof.
  split; [apply dict_update_absorb|]. split.
  - intros Hwf. apply dict_update_absorb.
    rewrite Forall_forall. intros [k v] Hin. simpl.
    rewrite dict_get_update by assumption.
    now rewrite (dict_get_In k v other Hwf Hin).
  - intros od res name s_id d' Hwf.
    pose proof (wf_basin_update od res name s_id) as Hwfu. split.
    + intros Hkeys. apply dict_update_absorb.
      rewrite Forall_forall. intros [k v] Hin. simpl. unfold d'.
      rewrite dict_get_update by assumption.
      rewrite basin_update_other
        by (apply Hkeys; now apply (in_map fst) in Hin).
      rewrite dict_get_update by assumption.
      now rewrite (dict_get_In k v other Hwf Hin).
    + intros v Hv Hne H.
      apply (f_equal (dict_get "output.file")) in H.
      rewrite dict_get_update, Hv in H by assumption.
      unfold d' in H. rewrite dict_get_update in H by assumption.
      rewrite basin_update_unfold in H. cbn [dict_get String.eqb] in H.
      simpl in H. congruence.
Qed.

(** The basin notebook's [stress_balance] already has the median
    parameters, so storing the sample leaves it as it is. *)
Lemma dict_update_idempotent_witness :
  dict_update Basins.stress_balance Basins.flow_params_median
  = Basins.stress_balance.
Proof.
  apply (proj1 (dict_update_idempotent Basins.stress_balance
                  Basins.flow_params_median)).
  repeat constructor.
Defined.

Section BasinStep.

Variable dict2str : dict -> string.

(** X6: one pass of the basin loop leaves [run_dict] with this basin's
    grid file, state file and spatial file, also when the sample has
    entries under these keys; every other key has the sample's value if
    the sample has the key, and otherwise the value it had before. *)
Theorem basin_step_sets_files (od res name : string) (nb : notebook)
    (s_id : Z) (sample : dict) :
  wf_dict sample ->
  let d' := run_dict (basin_step dict2str od res name nb (s_id, sample)) in
  dict_get "grid.file" d' = Some (VStr (basin_grid_file name))
  /\ dict_get "output.file" d'
     = Some (VPath (basin_state_file od res name s_id))
  /\ dict_get "output.extra.file" d'
     = Some (VPath (basin_spatial_file od res name s_id))
  /\ (forall k : string,
         basin_loop_key k = false ->
         dict_get k d' = match dict_get k sample with
                         | Some v => Some v
                         | None => dict_get k (run_dict nb)
                         end).
Proof.
  intros Hwf. cbv zeta. unfold basin_step. cbn [run_dict].
  pose proof (wf_basin_update od res name s_id) as Hwfu.
  split; [|split; [|split]].
  - now rewrite dict_get_update by assumption.
  - now rewrite dict_get_update by assumption.
  - now rewrite dict_get_update by assumption.
  - intros k Hk. unfold basin_loop_key in Hk.
    apply orb_false_iff in Hk. destruct Hk as [Hk H3].
    apply orb_false_iff in Hk. destruct Hk as [H1 H2].
    rewrite dict_get_update by assumption.
    rewrite basin_update_unfold. cbn [dict_get].
    rewrite H1, H2, H3.
    now apply dict_get_update.
Qed.

End BasinStep.

(** A sample that itself has an [output.file] entry. *)
Lemma basin_step_sets_files_witness :
  dict_get "output.file"
    (run_dict
       (basin_step d2s Basins.output_dir Basins.resolution "NW"
          {| run_dict := Basins.stress_balance; cmd_var := EmptyString;
             sh := fresh_shell (fun _ => 0) |}
          (0, [("output.file", VStr "elsewhere.nc")])))
  = Some (VPath (basin_state_file Basins.output_dir Basins.resolution "NW" 0)).
Proof.
  refine (proj1 (proj2
    (basin_step_sets_files d2s Basins.output_dir Basins.resolution "NW"
       {| run_dict := Basins.stress_balance; cmd_var := EmptyString;
          sh := fresh_shell (fun _ => 0) |}
       0 [("output.file", VStr "elsewhere.nc")] _))).
  wf_literal.
Defined.

Lemma no_slash_basin_tail (name : string) (s_id : Z) :
  no_slash name = true ->
  no_slash ("sector_" ++ name ++ "_id_" ++ str_of_int s_id ++ ".nc") = true.
Proof.
  intros Hn. rewrite !no_slash_app, Hn, no_slash_str_of_int. reflexivity.
Qed.

Lemma basin_file_names_differ (od t1 t2 : string) :
  path_join od ("state_" ++ t1) <> path_join od ("spatial_" ++ t2).
Proof.
  rewrite (path_join_cut od "state" t1 ("state_" ++ t1)) by reflexivity.
  rewrite (path_join_cut od "spatial" t2 ("spatial_" ++ t2)) by reflexivity.
  rewrite !path_join_plain by reflexivity.
  rewrite !str_app_assoc. intros H.
  apply str_app_inj_l in H. simpl in H. discriminate.
Qed.

(** X7: the files of the basin runs: a state file is never a spatial
    file; two basins have different grid files, and different state and
    spatial files when their names have no slash; two samples of one
    basin have different state and spatial files.  Names with slashes can
    collide, since a doubled slash counts as one. *)
Theorem basin_files_distinct (od res : string) :
  (forall name1 name2 s1 s2,
      basin_state_file od res name1 s1 <> basin_spatial_file od res name2 s2)
  /\ (forall name1 name2 s_id,
         name1 <> name2 ->
         basin_grid_file name1 <> basin_grid_file name2
         /\ (no_slash name1 = true -> no_slash name2 = true ->
             basin_state_file od res name1 s_id
             <> basin_state_file od res name2 s_id
             /\ basin_spatial_file od res name1 s_id
                <> basin_spatial_file od res name2 s_id))
  /\ (forall name s1 s2,
         s1 <> s2 ->
         basin_state_file od res name s1 <> basin_state_file od res name s2
         /\ basin_spatial_file od res name s1
            <> basin_spatial_file od res name s2)
  /\ (forall n t s_id,
         no_slash n = true ->
         n ++ "//" ++ t <> n ++ "/" ++ t
         /\ basin_state_file od res (n ++ "//" ++ t) s_id
            = basin_state_file od res (n ++ "/" ++ t) s_id
         /\ basin_spatial_file od res (n ++ "//" ++ t) s_id
            = basin_spatial_file od res (n ++ "/" ++ t) s_id).
Proof.
  split; [|split; [|split]].
  - intros name1 name2 s1 s2.
    apply (basin_file_names_differ od
             ("g" ++ res ++ "_sector_" ++ name1 ++ "_id_"
              ++ str_of_int s1 ++ ".nc")
             ("g" ++ res ++ "_sector_" ++ name2 ++ "_id_"
              ++ str_of_int s2 ++ ".nc")).
  - intros name1 name2 s_id Hne. split.
    + unfold basin_grid_file. intros H. apply Hne.
      apply (str_app_inj_l "domain_") in H. now apply str_app_inj_r in H.
    + intros H1 H2. split; intros H; apply Hne.
      * rewrite !basin_state_file_cut in H.
        rewrite !path_tail_plain_end in H by now apply no_slash_basin_tail.
        apply str_app_inj_l in H. apply (str_app_inj_l "sector_") in H.
        now apply str_app_inj_r in H.
      * rewrite !basin_spatial_file_cut in H.
        rewrite !path_tail_plain_end in H by now apply no_slash_basin_tail.
        apply str_app_inj_l in H. apply (str_app_inj_l "sector_") in H.
        now apply str_app_inj_r in H.
  - intros name s1 s2 Hne. split; intros H; apply Hne.
    + rewrite !basin_state_file_id_cut in H.
      apply str_app_inj_l in H. apply str_app_inj_r in H.
      now apply str_of_int_inj.
    + rewrite !basin_spatial_file_id_cut in H.
      apply str_app_inj_l in H. apply str_app_inj_r in H.
      now apply str_of_int_inj.
  - intros n t s_id Hn.
    assert (forall sl,
              "sector_" ++ (n ++ sl ++ t) ++ "_id_" ++ str_of_int s_id ++ ".nc"
              = ("sector_" ++ n)
                ++ sl ++ t ++ "_id_" ++ str_of_int s_id ++ ".nc") as Hassoc
        by (intros sl; now rewrite !str_app_assoc).
    assert (no_slash ("sector_" ++ n) = true) as Hd
        by (rewrite no_slash_app, Hn; reflexivity).
    split; [|split].
    + intros H. apply str_app_inj_l in H.
      apply (f_equal String.length) in H. simpl in H. lia.
    + rewrite !basin_state_file_cut, !Hassoc.
      now rewrite path_tail_double_slash.
    + rewrite !basin_spatial_file_cut, !Hassoc.
      now rewrite path_tail_double_slash.
Qed.

Lemma basin_files_distinct_witness :
  basin_state_file Basins.output_dir Basins.resolution "NW" 0
  <> basin_state_file Basins.output_dir Basins.resolution "SE" 0.
Proof.
  refine (proj1 (proj2
    (proj1 (proj2 (basin_files_distinct Basins.output_dir Basins.resolution))
       "NW" "SE" 0 _) _ _)).
  - discriminate.
  - reflexivity.
  - reflexivity.
Defined.

(** ** Reading the basin back from a file name *)












(** ** The list of files to download *)

Lemma download_inner (path : string) (files : list string)
    (to_download mkdirs : list string) :
  fold_left (download_step path) files (to_download, mkdirs)
  = ((to_download ++ map (path_join path) files)%list,
     (mkdirs ++ map (fun _ => path) files)%list).
Proof.
  revert to_download mkdirs.
  induction files as [|f files IH]; intros to_download mkdirs; simpl.
  - now rewrite !app_nil_r.
  - rewrite IH. now rewrite <- !app_assoc.
Qed.

Lemma collect_downloads_from (tutorial_files : list (string * forcing))
    (to_download mkdirs : list string) :
  fold_left
    (fun acc entry =>
       fold_left (download_step (forcing_path (snd entry)))
                 (forcing_files (snd entry)) acc)
    tutorial_files (to_download, mkdirs)
  = ((to_download
      ++ flat_map (fun entry => map (path_join (forcing_path (snd entry)))
                                    (forcing_files (snd entry)))
                  tutorial_files)%list,
     (mkdirs
      ++ flat_map (fun entry => map (fun _ => forcing_path (snd entry))
                                    (forcing_files (snd entry)))
                  tutorial_files)%list).
Proof.
  revert to_download mkdirs.
  induction tutorial_files as [|entry tfs IH]; intros to_download mkdirs; simpl.
  - now rewrite !app_nil_r.
  - rewrite download_inner, IH. now rewrite <- !app_assoc.
Qed.

(** X9: the list of downloads has one path per file, in the order of the
    entries and of their files, each the file joined to its entry's
    directory; a [mkdir] of that directory was made for each of them, and
    an entry without files adds no path and makes no directory. *)
Theorem collect_downloads_paths (tutorial_files : list (string * forcing)) :
  let '(to_download, mkdirs) := collect_downloads tutorial_files in
  to_download
  = flat_map (fun entry => map (path_join (forcing_path (snd entry)))
                               (forcing_files (snd entry)))
             tutorial_files
  /\ List.length to_download
     = list_sum (map (fun entry => List.length (forcing_files (snd entry)))
                     tutorial_files)
  /\ Forall2 (fun p d => exists f, p = path_join d f) to_download mkdirs
  /\ (forall d, In d mkdirs <->
                exists entry, In entry tutorial_files
                              /\ forcing_path (snd entry) = d
                              /\ forcing_files (snd entry) <> []).
Proof.
  unfold collect_downloads. rewrite collect_downloads_from. simpl.
  split; [reflexivity|]. split; [|split].
  - induction tutorial_files as [|entry tfs IH]; simpl; [reflexivity|].
    now rewrite length_app, length_map, IH.
  - induction tutorial_files as [|entry tfs IH]; simpl; [constructor|].
    apply Forall2_app; [|exact IH].
    induction (forcing_files (snd entry)) as [|f fs IHf]; simpl;
      constructor; [now exists f | exact IHf].
  - intros d. rewrite in_flat_map. split.
    + intros (entry & Hin & Hd). exists entry. split; [exact Hin|].
      apply in_map_iff in Hd. destruct Hd as (f & <- & Hf).
      split; [reflexivity|]. intros E. rewrite E in Hf. exact Hf.
    + intros (entry & Hin & <- & Hne). exists entry. split; [exact Hin|].
      destruct (forcing_files (snd entry)) as [|f fs]; [congruence|].
      now left.
Qed.

(** ** Rotations of the clipped states *)

Lemma skipn_firstn_next {A : Type} (l : list A) (k : nat) :
  (k < List.length l)%nat ->
  exists y, skipn k l = y :: skipn (S k) l
            /\ firstn (S k) l = (firstn k l ++ [y])%list.
Proof.
  revert k. induction l as [|x l IH]; intros k Hk; simpl in Hk; [lia|].
  destruct k as [|k].
  - exists x. split; reflexivity.
  - destruct (IH k) as (y & Hs & Hf); [lia|].
    exists y. split.
    + exact Hs.
    + change (firstn (S (S k)) (x :: l)) with (x :: firstn (S k) l).
      now rewrite Hf.
Qed.

Lemma skipn_firstn_step {A : Type} (l : list A) (k : nat) :
  (k < List.length l)%nat ->
  rotate_left1 (skipn k l ++ firstn k l)%list
  = (skipn (S k) l ++ firstn (S k) l)%list.
Proof.
  intros Hk. destruct (skipn_firstn_next l k Hk) as (y & Hs & Hf).
  rewrite Hs, Hf. simpl. now rewrite <- app_assoc.
Qed.

Lemma rotation_loop_spec {A M : Type}
    (merge_expand : nat -> list A -> option M) (l : list A) (n : nat) :
  let rot i := (skipn i l ++ firstn i l)%list in
  forall (k j : nat) (rots : list (list A)) (done new : list M),
    (k + n <= List.length l)%nat ->
    Forall2 (fun i m => merge_expand i (rot i) = Some m) (seq k j) new ->
    (j = n ->
     rotation_loop merge_expand n k
       {| rotations := rots; ms := done; dq := rot k |}
     = Finished {| rotations := (rots ++ map rot (seq k n))%list;
                   ms := (done ++ new)%list; dq := rot (k + n)%nat |})
    /\ ((j < n)%nat -> merge_expand (k + j)%nat (rot (k + j)%nat) = None ->
        rotation_loop merge_expand n k
          {| rotations := rots; ms := done; dq := rot k |}
        = Raised {| rotations := (rots ++ map rot (seq k (S j)))%list;
                    ms := (done ++ new)%list; dq := rot (k + j)%nat |}).
Proof.
  intros rot.
  induction n as [|n IH]; intros k j rots done new Hle Hnew.
  - split; [|lia]. intros ->. inversion Hnew; subst.
    cbn [rotation_loop seq map]. now rewrite !app_nil_r, Nat.add_0_r.
  - cbn [rotation_loop rotations ms dq].
    destruct j as [|j].
    + split; [discriminate|]. intros _ Hnone. inversion Hnew; subst.
      rewrite Nat.add_0_r in Hnone |- *. rewrite Hnone.
      now rewrite app_nil_r.
    + cbn [seq] in Hnew.
      inversion Hnew as [|? m ? new' Hm Hnew']; subst.
      rewrite Hm.
      replace (rotate_left1 (rot k)) with (rot (S k))
        by (symmetry; apply skipn_firstn_step; lia).
      destruct (IH (S k) j (rots ++ [rot k])%list (done ++ [m])%list new')
        as [Hfin Hraise]; [lia | exact Hnew' |].
      rewrite <- !app_assoc in Hfin, Hraise. cbn [app] in Hfin, Hraise.
      rewrite !Nat.add_succ_r. split.
      * intros [= ->]. now apply Hfin.
      * intros Hlt Hnone. apply Hraise; [lia | exact Hnone].
Qed.

(** X10: the rotation loop stores, pass after pass, the states from the
    [k]-th on followed by the first [k], each a rearrangement of the
    states.  When every pass makes its dataset, the loop ends with one
    rotation and one dataset per state and the deque back in its first
    order; when pass [k] is the first that raises, the cell ends there
    with [k + 1] rotations, the [k] datasets made so far and the deque
    rotated [k] times.  On states that have the dimension [sector], as
    the results cell builds them, the first pass raises. *)
Theorem rotations_cell_spec {A M : Type}
    (merge_expand : nat -> list A -> option M) (states_clipped : list A)
    (k : nat) (done : list M) :
  let n := List.length states_clipped in
  let rot i := (skipn i states_clipped ++ firstn i states_clipped)%list in
  (k <= n)%nat ->
  Forall2 (fun i m => merge_expand i (rot i) = Some m) (seq 0 k) done ->
  (k = n ->
   rotations_cell merge_expand states_clipped
   = Finished {| rotations := map rot (seq 0 n); ms := done;
                 dq := states_clipped |})
  /\ ((k < n)%nat -> merge_expand k (rot k) = None ->
      rotations_cell merge_expand states_clipped
      = Raised {| rotations := map rot (seq 0 (S k)); ms := done;
                  dq := rot k |})
  /\ Forall (fun r => Permutation states_clipped r) (map rot (seq 0 n))
  /\ (forall states : list (list string),
         states <> [] -> Forall (In "sector") states ->
         rotations_cell merge_expand_dims states
         = Raised {| rotations := [states]; ms := []; dq := states |}).
Proof.
  intros n rot Hle Hdone.
  destruct (rotation_loop_spec merge_expand states_clipped n 0 k [] [] done)
    as [Hfin Hraise]; [apply Nat.le_refl | exact Hdone |].
  cbn [app Nat.add] in Hfin, Hraise.
  assert (rot 0%nat = states_clipped) as H0 by apply app_nil_r.
  assert (rot n = states_clipped) as Hn
      by (unfold rot, n; now rewrite skipn_all, firstn_all).
  unfold rot in H0, Hn. rewrite H0 in Hfin, Hraise. rewrite Hn in Hfin.
  split; [|split; [|split]].
  - intros Hk. exact (Hfin Hk).
  - intros Hlt Hnone. exact (Hraise Hlt Hnone).
  - rewrite Forall_forall. intros r Hr.
    apply in_map_iff in Hr. destruct Hr as (i & <- & _).
    unfold rot. rewrite <- (firstn_skipn i states_clipped) at 1.
    apply Permutation_app_comm.
  - intros states Hne Hall.
    destruct states as [|s1 rest]; [congruence|].
    unfold rotations_cell. cbn [List.length rotation_loop rotations ms dq app].
    assert (merge_expand_dims 0 (s1 :: rest) = None) as ->; [|reflexivity].
    unfold merge_expand_dims, expand_dims.
    assert (existsb (String.eqb "sector") (xr_merge_dims (s1 :: rest)) = true)
      as ->; [|reflexivity].
    apply existsb_exists. exists "sector". split; [|apply String.eqb_refl].
    unfold xr_merge_dims. apply nodup_In. cbn [List.concat].
    apply in_or_app. left. now inversion Hall.
Qed.

(** Two states with the dimension [sector]: the first pass raises. *)
Lemma rotations_cell_spec_witness :
  rotations_cell merge_expand_dims
    [["sector"; "time"; "y"; "x"]; ["sector"; "time"; "y"; "x"]]
  = Raised {| rotations := [[["sector"; "time"; "y"; "x"];
                             ["sector"; "time"; "y"; "x"]]];
              ms := [];
              dq := [["sector"; "time"; "y"; "x"];
                     ["sector"; "time"; "y"; "x"]] |}.
Proof.
  refine (proj1 (proj2
    (rotations_cell_spec merge_expand_dims
       [["sector"; "time"; "y"; "x"]; ["sector"; "time"; "y"; "x"]]
       0 [] _ _)) _ _).
  - simpl. lia.
  - constructor.
  - simpl. lia.
  - reflexivity.
Defined.

(** ** [check_params] *)

Lemma not_found_line_inj (k1 k2 : string) :
  not_found_line k1 = not_found_line k2 -> k1 = k2.
Proof.
  unfold not_found_line. intros H.
  apply (str_app_inj_l "  - ") in H. now apply str_app_inj_r in H.
Qed.

(** X11: [check_params] prints a line for a key exactly when the key is in
    the dictionary and the configuration lacks it, in the order of the
    dictionary; for a dictionary of known keys it prints the heading and
    the two rules only. *)
Theorem check_params_reports (has_attr : string -> bool) (d : dict) :
  (forall key : string,
      In (not_found_line key) (check_params has_attr d) <->
      In key (dict_keys d) /\ has_attr key = false)
  /\ (exists reported : list string,
         check_params has_attr d
         = ([String newline "Checking parameters"; rule60]
            ++ map not_found_line reported
            ++ [(rule60 ++ String newline EmptyString)%string])%list
         /\ reported = filter (fun key => negb (has_attr key)) (dict_keys d))
  /\ (List.length (check_params has_attr d) = 3%nat <->
      forall key, In key (dict_keys d) -> has_attr key = true).
Proof.
  assert (forall l, filter (fun key => Bool.eqb (has_attr key) false) l
                    = filter (fun key => negb (has_attr key)) l) as Hf.
  { intros l. apply filter_ext. intros k. now destruct (has_attr k). }
  unfold check_params. rewrite Hf.
  split; [|split].
  - intros key. simpl. rewrite in_app_iff, in_map_iff. split.
    + intros [H|[H|[H|H]]].
      * discriminate.
      * discriminate.
      * destruct H as (k & Hk & Hin). apply not_found_line_inj in Hk.
        subst k. apply filter_In in Hin. destruct Hin as [Hin Hh].
        split; [exact Hin|]. now apply negb_true_iff.
      * simpl in H. destruct H as [H|[]]. discriminate.
    + intros [Hin Hh]. right. right. left. exists key.
      split; [reflexivity|]. apply filter_In. split; [exact Hin|].
      now apply negb_true_iff.
  - eexists. split; reflexivity.
  - simpl. rewrite length_app, length_map. simpl.
    split.
    + intros Hlen key Hin.
      destruct (has_attr key) eqn:E; [reflexivity|].
      assert (In key (filter (fun key => negb (has_attr key)) (dict_keys d)))
        as Hk by (apply filter_In; split; [exact Hin | now rewrite E]).
      destruct (filter (fun key => negb (has_attr key)) (dict_keys d));
        [destruct Hk | simpl in Hlen; lia].
    + intros Hall.
      assert (filter (fun key => negb (has_attr key)) (dict_keys d) = [])
        as ->; [|reflexivity].
      induction (dict_keys d) as [|k ks IH]; simpl; [reflexivity|].
      rewrite (Hall k (or_introl eq_refl)). simpl.
      apply IH. intros key Hin. apply Hall. now right.
Qed.

(** ** Grids *)

Import Grid.

Lemma Qceiling_unique (x : Q) (z : Z) :
  (inject_Z (z - 1) < x)%Q -> (x <= inject_Z z)%Q -> Qceiling x = z.
Proof.
  intros Hlo Hhi.
  assert (Qceiling x <= z) as H1.
  { rewrite <- (Qceiling_Z z). now apply Qceiling_resp_le. }
  assert (z - 1 < Qceiling x) as H2.
  { rewrite Zlt_Qlt. eapply Qlt_le_trans; [exact Hlo | apply Qle_ceiling]. }
  lia.
Qed.

Lemma arange_length_eq (start stop step : Q) (n : nat) :
  Qceiling ((stop - start) / step) = Z.of_nat n ->
  arange start stop step
  = map (fun i => start + inject_Z (Z.of_nat i) * step)%Q (seq 0 n).
Proof. unfold arange. intros ->. now rewrite Nat2Z.id. Qed.

(** X12: [np.arange(0, L + d, d)] for [L] a whole multiple [n] of a
    positive step [d] has the [n + 1] points [0, d, ..., L]: the end [L]
    of the domain is a grid point. *)
Theorem arange_includes_end (d : Q) (n : nat) :
  (0 < d)%Q ->
  let L := (inject_Z (Z.of_nat n) * d)%Q in
  arange 0 (L + d) d
  = map (fun i => 0 + inject_Z (Z.of_nat i) * d)%Q (seq 0 (S n))
  /\ List.length (arange 0 (L + d) d) = S n
  /\ (last (arange 0 (L + d) d) 0 == L)%Q.
Proof.
  intros Hd L.
  assert (arange 0 (L + d) d
          = map (fun i => 0 + inject_Z (Z.of_nat i) * d)%Q (seq 0 (S n)))
    as Heq.
  { apply arange_length_eq.
    assert ((L + d - 0) / d == inject_Z (Z.of_nat (S n)))%Q as E.
    { unfold L. rewrite Nat2Z.inj_succ. unfold Z.succ.
      rewrite inject_Z_plus. field.
      intros E. rewrite E in Hd. discriminate. }
    rewrite E. apply Qceiling_Z. }
  split; [exact Heq|]. split.
  - now rewrite Heq, length_map, length_seq.
  - rewrite Heq. rewrite seq_S, map_app. simpl.
    rewrite last_last. unfold L. ring.
Qed.

(** The x grid of the MISMIP+ notebook: 401 points from 0 to 800 km. *)
Lemma arange_includes_end_witness :
  List.length (arange 0 (inject_Z (Z.of_nat 400) * 2000 + 2000) 2000)
  = 401%nat.
Proof.
  refine (proj1 (proj2 (arange_includes_end 2000 400 _))).
  reflexivity.
Defined.

(** X13: when the width of the domain is [n] whole cells of size [dr],
    the cell centres are the [n] points [x0 + dr/2 + i * dr]: the first
    cell starts at [x0] and the last one ends at [x1]. *)
Theorem cell_centres_tile (x0 x1 dr : Q) (n : nat) :
  (0 < dr)%Q ->
  (x1 - x0 == inject_Z (Z.of_nat n) * dr)%Q ->
  cell_centres x0 x1 dr
  = map (fun i => x0 + dr / 2 + inject_Z (Z.of_nat i) * dr)%Q (seq 0 n)
  /\ List.length (cell_centres x0 x1 dr) = n
  /\ (forall c, In c (cell_centres x0 x1 dr) ->
                (x0 + dr / 2 <= c /\ c + dr / 2 <= x1)%Q)
  /\ (n <> O ->
      (last (cell_centres x0 x1 dr) 0 + dr / 2 == x1)%Q).
Proof.
  intros Hdr Hw.
  assert (~ dr == 0)%Q as Hne
      by (intros E; rewrite E in Hdr; discriminate).
  assert (cell_centres x0 x1 dr
          = map (fun i => x0 + dr / 2 + inject_Z (Z.of_nat i) * dr)%Q
                (seq 0 n)) as Heq.
  { unfold cell_centres. apply arange_length_eq.
    assert ((x1 - (x0 + dr / 2)) / dr
            == inject_Z (Z.of_nat n) - (1 # 2))%Q as E.
    { setoid_replace (x1 - (x0 + dr / 2))%Q
        with ((x1 - x0) - dr / 2)%Q by ring.
      rewrite Hw. field. exact Hne. }
    rewrite E. apply Qceiling_unique.
    - replace (Z.of_nat n - 1)%Z with (Z.of_nat n + -1)%Z by lia.
      rewrite inject_Z_plus. unfold Qminus.
      apply Qplus_lt_r. reflexivity.
    - unfold Qminus.
      rewrite <- (Qplus_0_r (inject_Z (Z.of_nat n))) at 2.
      apply Qplus_le_r. discriminate. }
  split; [exact Heq|]. split; [|split].
  - now rewrite Heq, length_map, length_seq.
  - intros c Hc. rewrite Heq in Hc.
    apply in_map_iff in Hc. destruct Hc as (i & <- & Hi).
    apply in_seq in Hi.
    assert (0 <= inject_Z (Z.of_nat i))%Q as Hi0.
    { change 0%Q with (inject_Z 0). rewrite <- Zle_Qle. lia. }
    assert (inject_Z (Z.of_nat i) + 1 <= inject_Z (Z.of_nat n))%Q as Hin.
    { change 1%Q with (inject_Z 1). rewrite <- inject_Z_plus, <- Zle_Qle.
      lia. }
    split.
    + rewrite <- (Qplus_0_r (x0 + dr / 2)) at 1.
      apply Qplus_le_r. apply Qmult_le_0_compat; [exact Hi0|].
      now apply Qlt_le_weak.
    + apply (Qplus_le_l _ _ (- x0)).
      setoid_replace (x1 + - x0)%Q with (x1 - x0)%Q by ring.
      rewrite Hw.
      setoid_replace (x0 + dr / 2 + inject_Z (Z.of_nat i) * dr + dr / 2
                      + - x0)%Q
        with ((inject_Z (Z.of_nat i) + 1) * dr)%Q by field.
      apply Qmult_le_compat_r; [exact Hin | now apply Qlt_le_weak].
  - intros Hn. rewrite Heq.
    destruct n as [|m]; [congruence|].
    rewrite seq_S, map_app. simpl. rewrite last_last.
    apply (Qplus_inj_r _ _ (- x0)).
    setoid_replace (x1 + - x0)%Q with (x1 - x0)%Q by ring.
    rewrite Hw. rewrite Nat2Z.inj_succ. unfold Z.succ.
    rewrite inject_Z_plus. field.
Qed.

(** The test domain from 0 to 9000 with cells of 1500: six centres. *)
Lemma cell_centres_tile_witness :
  cell_centres 0 9000 1500
  = map (fun i => 0 + 1500 / 2 + inject_Z (Z.of_nat i) * 1500)%Q (seq 0 6).
Proof.
  refine (proj1 (cell_centres_tile 0 9000 1500 6 _ _)); reflexivity.
Defined.
(** ** The MISMIP+ fields *)

Lemma By_default_bounds (y : R) :
  (0 < Mismip.By_default y < 1000)%R.
Proof.
  unfold Mismip.By_default, Mismip.By, Mismip.dc.
  set (e1 := exp (-2 * (y - Mismip.Ly / 2 - Mismip.wc) / Mismip.fc)).
  set (e2 := exp (2 * (y - Mismip.Ly / 2 + Mismip.wc) / Mismip.fc)).
  assert (0 < e1)%R as H1 by apply exp_pos.
  assert (0 < e2)%R as H2 by apply exp_pos.
  assert (0 < / (1 + e1) < 1)%R as [A1 B1].
  { split; [apply Rinv_0_lt_compat; lra|].
    rewrite <- Rinv_1 at 2. apply Rinv_lt_contravar; lra. }
  assert (0 < / (1 + e2) < 1)%R as [A2 B2].
  { split; [apply Rinv_0_lt_compat; lra|].
    rewrite <- Rinv_1 at 2. apply Rinv_lt_contravar; lra. }
  unfold Rdiv. lra.
Qed.

Lemma By_default_mirror (t : R) :
  Mismip.By_default (Mismip.Ly / 2 + t)%R
  = Mismip.By_default (Mismip.Ly / 2 - t)%R.
Proof.
  unfold Mismip.By_default, Mismip.By.
  replace (-2 * (Mismip.Ly / 2 + t - Mismip.Ly / 2 - Mismip.wc) / Mismip.fc)%R
    with (2 * (Mismip.Ly / 2 - t - Mismip.Ly / 2 + Mismip.wc) / Mismip.fc)%R
    by (unfold Rdiv; ring).
  replace (2 * (Mismip.Ly / 2 + t - Mismip.Ly / 2 + Mismip.wc) / Mismip.fc)%R
    with (-2 * (Mismip.Ly / 2 - t - Mismip.Ly / 2 - Mismip.wc) / Mismip.fc)%R
    by (unfold Rdiv; ring).
  apply Rplus_comm.
Qed.

(** X14: for a positive depth [dc] and a non-zero width scale [fc], the
    channel profile [By] lies strictly between 0 and [2 * dc] for every
    [y]; with the default parameters, between 0 and 1000. *)
Theorem By_between_0_and_2dc (y Ly dc fc wc : R) :
  (0 < dc)%R -> (fc <> 0)%R ->
  (0 < Mismip.By y Ly dc fc wc < 2 * dc)%R
  /\ (0 < Mismip.By_default y < 1000)%R.
Proof.
  intros Hdc _. split; [|apply By_default_bounds].
  unfold Mismip.By.
  set (e1 := exp (-2 * (y - Ly / 2 - wc) / fc)).
  set (e2 := exp (2 * (y - Ly / 2 + wc) / fc)).
  assert (0 < e1)%R as H1 by apply exp_pos.
  assert (0 < e2)%R as H2 by apply exp_pos.
  assert (0 < / (1 + e1) < 1)%R as [A1 B1].
  { split; [apply Rinv_0_lt_compat; lra|].
    rewrite <- Rinv_1 at 2. apply Rinv_lt_contravar; lra. }
  assert (0 < / (1 + e2) < 1)%R as [A2 B2].
  { split; [apply Rinv_0_lt_compat; lra|].
    rewrite <- Rinv_1 at 2. apply Rinv_lt_contravar; lra. }
  unfold Rdiv. nra.
Qed.

Lemma By_between_0_and_2dc_witness :
  (0 < Mismip.By 0 Mismip.Ly Mismip.dc Mismip.fc Mismip.wc
   < 2 * Mismip.dc)%R.
Proof.
  apply (proj1 (By_between_0_and_2dc 0 Mismip.Ly Mismip.dc Mismip.fc
                  Mismip.wc ltac:(unfold Mismip.dc; lra)
                  ltac:(unfold Mismip.fc; lra))).
Defined.

(** X15: the bed is nowhere below -800; up to 140 km past [Lx] it is
    nowhere below [bed_deep]; past [Lx] it does not depend on [y]; and it
    is mirror-symmetric about the centerline [Ly / 2]. *)
Theorem bed_bounds_and_symmetry :
  (forall x y : R, -800 <= MismipFields.bed x y)%R
  /\ (forall x y : R,
         (x <= MismipFields.Lx + 140000)%R ->
         (MismipFields.bed_deep <= MismipFields.bed x y)%R)
  /\ (forall x y y' : R,
         (MismipFields.Lx < x)%R ->
         MismipFields.bed x y = MismipFields.bed x y')
  /\ (forall x t : R,
         MismipFields.bed x (Mismip.Ly / 2 + t)
         = MismipFields.bed x (Mismip.Ly / 2 - t))%R.
Proof.
  unfold MismipFields.bed, MismipFields.bed_deep, MismipFields.Lx.
  split; [|split; [|split]].
  - intros x y.
    destruct (Rlt_dec (640000 + 140000) x); [lra|].
    destruct (Rlt_dec 640000 x); [lra|].
    pose proof (Rmax_r (Mismip.Bx_default x + Mismip.By_default y) (-720)).
    lra.
  - intros x y Hx.
    destruct (Rlt_dec (640000 + 140000) x); [lra|].
    destruct (Rlt_dec 640000 x); [lra|].
    apply Rmax_r.
  - intros x y y' Hx.
    destruct (Rlt_dec (640000 + 140000) x); [reflexivity|].
    destruct (Rlt_dec 640000 x); [reflexivity | lra].
  - intros x t.
    destruct (Rlt_dec (640000 + 140000) x); [reflexivity|].
    destruct (Rlt_dec 640000 x); [reflexivity|].
    f_equal. f_equal. apply By_default_mirror.
Qed.

Lemma bed_bounds_and_symmetry_witness :
  (MismipFields.bed_deep <= MismipFields.bed 0 0)%R.
Proof.
  apply (proj1 (proj2 bed_bounds_and_symmetry) 0%R 0%R).
  unfold MismipFields.Lx. lra.
Defined.

(** X16: the three masks are nested, the land-ice mask inside the basin
    mask inside the ocean-temperature mask; the ocean-temperature mask is
    0 exactly where the bed is at -800; and the basin mask differs from
    the ocean-temperature mask exactly on the line [x = Lx + 140 km]. *)
Theorem masks_nested :
  forall x y : R,
    (MismipFields.liafr x <= MismipFields.basins x
     <= MismipFields.to x)%R
    /\ (MismipFields.to x = 0%R <-> MismipFields.bed x y = (-800)%R)
    /\ (MismipFields.basins x <> MismipFields.to x
        <-> x = (MismipFields.Lx + 140000)%R).
Proof.
  intros x y.
  unfold MismipFields.liafr, MismipFields.basins, MismipFields.to,
    MismipFields.bed, MismipFields.bed_deep, MismipFields.Lx.
  destruct (Rle_dec x 640000), (Rlt_dec x (640000 + 140000)),
    (Rle_dec x (640000 + 140000)), (Rlt_dec (640000 + 140000) x),
    (Rlt_dec 640000 x); try lra.
  all: try (pose proof (Rmax_r (Mismip.Bx_default x + Mismip.By_default y)
                               (-720)) as Hmax).
  all: repeat split; try lra; try (intros; lra); try (intros H; exfalso; lra).
Qed.
(** ** [dicts2str], continued *)

Lemma dict_set_new_entry (k : string) (v : value) (d : dict) :
  ~ In k (dict_keys d) -> dict_set k v d = (d ++ [(k, v)])%list.
Proof.
  induction d as [|[k' v'] d IH]; simpl; [reflexivity|].
  intros Hn. destruct (String.eqb_spec k k') as [->|Hne].
  - exfalso. apply Hn. now left.
  - f_equal. apply IH. intros H. apply Hn. now right.
Qed.

Lemma dict_update_disjoint (d1 d2 : dict) :
  wf_dict d2 ->
  (forall k, In k (dict_keys d2) -> ~ In k (dict_keys d1)) ->
  dict_update d1 d2 = (d1 ++ d2)%list.
Proof.
  unfold dict_update, wf_dict. revert d1.
  induction d2 as [|[k v] d2 IH]; intros d1 Hwf Hdis; simpl.
  - now rewrite app_nil_r.
  - inversion Hwf as [|? ? Hnotin Hnd]; subst.
    rewrite dict_set_new_entry by (apply Hdis; now left).
    rewrite IH; [now rewrite <- app_assoc | assumption |].
    intros k' Hk' Hin. unfold dict_keys in Hin.
    rewrite map_app, in_app_iff in Hin. simpl in Hin.
    destruct Hin as [Hin|[<-|[]]].
    + apply (Hdis k'); [now right | exact Hin].
    + contradiction.
Qed.

(** X17: rendering two dictionaries that share no key gives the same
    string as rendering the one dictionary obtained by updating the first
    with the second. *)
Theorem dicts2str_of_update (d1 d2 : dict) :
  wf_dict d2 ->
  (forall k, In k (dict_keys d2) -> ~ In k (dict_keys d1)) ->
  dicts2str [d1; d2] = dicts2str [dict_update d1 d2].
Proof.
  intros Hwf Hdis. rewrite dict_update_disjoint by assumption.
  rewrite dicts2str_single, d2s_app.
  destruct d1 as [|kv1 d1], d2 as [|kv2 d2]; reflexivity.
Qed.

Lemma dicts2str_of_update_witness :
  dicts2str [ClimateForcing.grid_params; ClimateForcing.time_params]
  = dicts2str [dict_update ClimateForcing.grid_params
                           ClimateForcing.time_params].
Proof.
  apply dicts2str_of_update.
  - wf_literal.
  - intros k Hk. simpl in Hk. simpl. intuition (subst; discriminate).
Defined.

Lemma d2s_nonempty (kv : string * value) (d : dict) :
  exists rest, d2s (kv :: d) = String "-" rest.
Proof. rewrite d2s_cons. simpl. eauto. Qed.

Lemma filter_dict_bool_nil (args : list dict) :
  filter dict_bool args = [] <-> Forall (fun d => d = []) args.
Proof.
  induction args as [|d args IH]; simpl.
  - split; [constructor | reflexivity].
  - destruct d as [|kv d]; simpl.
    + rewrite IH. split; [now constructor | now inversion 1].
    + split; [discriminate | inversion 1; discriminate].
Qed.

(** X18: [dicts2str] gives the empty string exactly when every argument is
    an empty dictionary; otherwise the string starts with a dash. *)
Theorem dicts2str_empty_iff (args : list dict) :
  (dicts2str args = EmptyString <-> Forall (fun d => d = []) args)
  /\ (dicts2str args = EmptyString
      \/ exists rest, dicts2str args = String "-" rest).
Proof.
  assert (dicts2str args = EmptyString /\ filter dict_bool args = []
          \/ (exists rest, dicts2str args = String "-" rest)
             /\ filter dict_bool args <> []) as Hcases.
  { unfold dicts2str.
    destruct (filter dict_bool args) as [|d ds] eqn:E.
    - left. split; reflexivity.
    - right. split; [|discriminate].
      assert (In d (filter dict_bool args)) as Hd by (rewrite E; now left).
      apply filter_In in Hd. destruct Hd as [_ Hd].
      destruct d as [|kv d]; [discriminate|].
      simpl map. rewrite str_join_cons.
      destruct (d2s_nonempty kv d) as [rest ->]. simpl. eauto. }
  split.
  - rewrite <- filter_dict_bool_nil.
    destruct Hcases as [[H1 H2]|[[rest H1] H2]].
    + tauto.
    + rewrite H1. split; [discriminate | contradiction].
  - destruct Hcases as [[H1 _]|[H1 _]]; [now left | now right].
Qed.

Lemma existsb_dict_bool_false (args : list dict) :
  existsb dict_bool args = false -> filter dict_bool args = [].
Proof.
  induction args as [|d args IH]; simpl; [reflexivity|].
  intros H. apply orb_false_iff in H. destruct H as [-> H]. now apply IH.
Qed.

Lemma existsb_dict_bool_true (args : list dict) :
  existsb dict_bool args = true -> filter dict_bool args <> [].
Proof.
  induction args as [|d args IH]; simpl; [discriminate|].
  destruct (dict_bool d); simpl; [discriminate | exact IH].
Qed.

(** X19: rendering two argument lists one after the other is rendering
    each and joining the two strings, with one space between them when
    both lists have a non-empty dictionary and nothing otherwise. *)
Theorem dicts2str_app (args1 args2 : list dict) :
  dicts2str (args1 ++ args2)%list
  = dicts2str args1
    ++ (if existsb dict_bool args1 && existsb dict_bool args2
        then " " else EmptyString)
    ++ dicts2str args2.
Proof.
  unfold dicts2str. rewrite filter_app, map_app, str_join_app.
  destruct (existsb dict_bool args1) eqn:E1.
  - apply existsb_dict_bool_true in E1.
    destruct (filter dict_bool args1) as [|a1 l1]; [congruence|].
    destruct (existsb dict_bool args2) eqn:E2.
    + apply existsb_dict_bool_true in E2.
      destruct (filter dict_bool args2) as [|a2 l2]; [congruence|].
      reflexivity.
    + apply existsb_dict_bool_false in E2. rewrite E2. simpl.
      now rewrite str_app_nil_r.
  - apply existsb_dict_bool_false in E1. rewrite E1. reflexivity.
Qed.
(** ** The Greenland run loop: what is left behind, and how often it runs *)

Section GreenlandLoopEnd.

Variable dict2str : dict -> string.

(** X20: the loop updates the one shared [run_dict]: when it ends,
    [run_dict] still has the climate file and the output file of the last
    iteration, and the variable [cmd] the last command, which is what the
    shell was handed last, after a blank. *)
Theorem greenland_loop_leaves_last (od res st en : string)
    (its : list (Z * string)) (last_it : Z * string) (nb : notebook) :
  let nb' :=
    greenland_loop dict2str od res st en (its ++ [last_it])%list nb in
  dict_get "surface.ismip6.file" (run_dict nb') = Some (VStr (snd last_it))
  /\ dict_get "output.extra.file" (run_dict nb')
     = Some (VPath (greenland_extra_file od res st en (fst last_it)))
  /\ cmd_var nb' = cmd dict2str 8 (run_dict nb')
  /\ last (issued (sh nb')) EmptyString = " " ++ cmd_var nb'.
Proof.
  cbv zeta. unfold greenland_loop. rewrite fold_left_app.
  cbn [fold_left].
  set (mid := fold_left (greenland_step dict2str od res st en) its nb).
  unfold greenland_step at 1 2 3 4 5. cbn [run_dict cmd_var sh bang issued].
  destruct (greenland_update_sets od res st en last_it (run_dict mid))
    as [H1 H2].
  split; [exact H1|]. split; [exact H2|]. split; [reflexivity|].
  apply last_last.
Qed.

(** X21: the loop runs over [zip([26, 85], climate_files)], so it hands
    the shell one command for each of the first two climate files and
    ignores any further one; with fewer than two files it runs less
    often. *)
Theorem greenland_loop_runs_zip (od res st en : string)
    (climate_files : list string) (d0 : dict) (c0 : string)
    (o : nat -> Z) :
  let nb' :=
    greenland_loop dict2str od res st en
      (greenland_iterations climate_files)
      {| run_dict := d0; cmd_var := c0; sh := fresh_shell o |} in
  List.length (issued (sh nb'))
  = Nat.min 2 (List.length climate_files)
  /\ map (dict_get "surface.ismip6.file")
         (greenland_dicts od res st en
            (greenland_iterations climate_files) d0)
     = map (fun f => Some (VStr f)) (firstn 2 climate_files).
Proof.
  cbv zeta.
  destruct (greenland_loop_trace dict2str od res st en
              (greenland_iterations climate_files)
              {| run_dict := d0; cmd_var := c0; sh := fresh_shell o |})
    as (_ & Hi & _).
  cbn [run_dict sh issued fresh_shell] in Hi. rewrite Hi.
  split.
  - cbn [app]. rewrite length_map, length_greenland_dicts.
    unfold greenland_iterations. now rewrite length_combine.
  - rewrite (greenland_dicts_map od res st en
               (dict_get "surface.ismip6.file")
               (fun it => Some (VStr (snd it))))
      by (intros d it; apply (proj1 (greenland_update_sets od res st en it d))).
    unfold greenland_iterations.
    destruct climate_files as [|f1 [|f2 fs]]; reflexivity.
Qed.

End GreenlandLoopEnd.

(** ** The basin run loop: the files of every run *)

Lemma basin_update_gets (od res name : string) (s_id : Z) (d : dict) :
  let d' := dict_update d (basin_update od res name s_id) in
  dict_get "grid.file" d' = Some (VStr (basin_grid_file name))
  /\ dict_get "output.file" d'
     = Some (VPath (basin_state_file od res name s_id))
  /\ dict_get "output.extra.file" d'
     = Some (VPath (basin_spatial_file od res name s_id)).
Proof.
  cbv zeta. pose proof (wf_basin_update od res name s_id) as Hwf.
  rewrite !dict_get_update by assumption. now split.
Qed.

Lemma basin_dicts_map {A : Type} (od res name : string)
    (f : dict -> A) (g : Z * dict -> A) :
  (forall d s_id sample,
      f (dict_update (dict_update d sample)
                     (basin_update od res name s_id))
      = g (s_id, sample)) ->
  forall samples d,
    map f (basin_dicts od res name samples d) = map g samples.
Proof.
  intros Hstep samples.
  induction samples as [|[s_id sample] samples IH]; intros d;
    [reflexivity|].
  change (basin_dicts od res name ((s_id, sample) :: samples) d)
    with (dict_update (dict_update d sample) (basin_update od res name s_id)
          :: basin_dicts od res name samples
               (dict_update (dict_update d sample)
                            (basin_update od res name s_id))).
  cbn [map]. now rewrite Hstep, IH.
Qed.

(** X22: over the whole basin loop, the runs use, basin after basin and
    sample after sample, the grid file of their own basin and the state
    and spatial files of their own basin and sample; no run inherits a
    file name from the run before it. *)
Theorem basin_loop_files (od res : string) (names : list string)
    (samples : list (Z * dict)) (d0 : dict) :
  let ds := basin_loop_dicts od res names samples d0 in
  map (dict_get "grid.file") ds
  = flat_map (fun name =>
                map (fun _ => Some (VStr (basin_grid_file name))) samples)
             names
  /\ map (dict_get "output.file") ds
     = flat_map (fun name =>
                   map (fun row =>
                          Some (VPath (basin_state_file od res name (fst row))))
                       samples)
                names
  /\ map (dict_get "output.extra.file") ds
     = flat_map (fun name =>
                   map (fun row =>
                          Some (VPath (basin_spatial_file od res name (fst row))))
                       samples)
                names
  /\ List.length ds = (List.length names * List.length samples)%nat.
Proof.
  cbv zeta. split; [|split; [|split]].
  - revert d0. induction names as [|name names IH]; intros d0; simpl;
      [reflexivity|].
    rewrite map_app, IH. f_equal.
    apply (basin_dicts_map od res name (dict_get "grid.file")
             (fun _ => Some (VStr (basin_grid_file name)))).
    intros d s_id sample. apply (basin_update_gets od res name s_id).
  - revert d0. induction names as [|name names IH]; intros d0; simpl;
      [reflexivity|].
    rewrite map_app, IH. f_equal.
    apply (basin_dicts_map od res name (dict_get "output.file")
             (fun row => Some (VPath (basin_state_file od res name (fst row))))).
    intros d s_id sample. apply (basin_update_gets od res name s_id).
  - revert d0. induction names as [|name names IH]; intros d0; simpl;
      [reflexivity|].
    rewrite map_app, IH. f_equal.
    apply (basin_dicts_map od res name (dict_get "output.extra.file")
             (fun row =>
                Some (VPath (basin_spatial_file od res name (fst row))))).
    intros d s_id sample. apply (basin_update_gets od res name s_id).
  - apply length_basin_loop_dicts.
Qed.
